(** * flowgen: control-flow diagram generation

    A shallow embedding of the post-processing and rendering pipeline of
    flowgen (noise filter, pass-through resolution, split decision, label
    formatter, Mermaid renderer), with the properties of its specification
    stated and settled against it.

    Conventions.
    - A Go [string] is a byte sequence; it is modelled by [string], whose
      characters are the bytes, and [len(s)] is [String.length s].
    - A [*cfg.Block] is a pointer; it is modelled by the position of the
      block in [CFG.Blocks] (every block that [cfg.New] creates is appended
      to that slice), and the heap by the slice itself.
    - [go/printer] and [cfg.New] are external; they are parameters. *)

From Stdlib Require Import Ascii String.
From stdpp Require Import base decidable option list sorting gmap strings pretty.

Set Warnings "-register-all".
Local Open Scope Z_scope.

(** ** Syntax nodes (the part of [go/ast] the program inspects) *)

Module token.
Inductive Token : Type :=
| NOT | EQL | NEQ | LSS | GTR | LEQ | GEQ | LAND | LOR
| INC | DEC | ASSIGN | DEFINE
| Other (code : nat).

(** [token.FileSet] is only ever handed to the printer. *)
Record FileSet : Type := { fsetId : nat }.
End token.

Module ast.
(** [Other] stands for every node type the program never matches on
    (literals, value specs, send statements, ...). A deferred call holds
    a call expression by type, hence its two fields. *)
Inductive Node : Type :=
| Ident (Name : string)
| SelectorExpr (X : Node) (Sel : string)
| CallExpr (Fun : Node) (Args : list Node)
| UnaryExpr (Op : token.Token) (X : Node)
| BinaryExpr (X : Node) (Op : token.Token) (Y : Node)
| ExprStmt (X : Node)
| AssignStmt (Lhs : list Node) (Tok : token.Token) (Rhs : list Node)
| DeferStmt (Fun : Node) (Args : list Node)
| IncDecStmt (X : Node) (Tok : token.Token)
| ReturnStmt (Results : list Node)
| Other (tag : nat).
End ast.
Import ast.

(** ** filterNoise *)

(** The [switch x := n.(type)] of [filterNoise]: the expression at the head
    of the node, [None] when [expr] stays nil. *)
Definition headExpr (n : Node) : option Node :=
  match n with
  | ExprStmt X => Some X
  | AssignStmt _ _ Rhs =>
      match Rhs with
      | [e] => Some e
      | _ => None
      end
  | DeferStmt Fun Args => Some (CallExpr Fun Args)
  | _ => None
  end.

Definition denied (name : string) : bool :=
  String.eqb name "metrics" || String.eqb name "span"
  || String.eqb name "tracing" || String.eqb name "log"
  || String.eqb name "logger".

Definition isNoise (n : Node) : bool :=
  match headExpr n with
  | Some (CallExpr (SelectorExpr (Ident name) _) _) => denied name
  | _ => false
  end.

Fixpoint filterNoise (nodes : list Node) : list Node :=
  match nodes with
  | [] => []
  | n :: rest =>
      if isNoise n then filterNoise rest else n :: filterNoise rest
  end.

(** The denylist as a list, and the shapes of a noise node as the program
    recognises them. *)
Definition denylist : list string :=
  ["metrics"; "span"; "tracing"; "log"; "logger"].

Definition noiseCall (e : Node) : Prop :=
  ∃ name sel args,
    e = CallExpr (SelectorExpr (Ident name) sel) args ∧ name ∈ denylist.

Definition noiseShape (n : Node) : Prop :=
  (∃ e, n = ExprStmt e ∧ noiseCall e)
  ∨ (∃ lhs tok e, n = AssignStmt lhs tok [e] ∧ noiseCall e)
  ∨ (∃ f args, n = DeferStmt f args ∧ noiseCall (CallExpr f args)).

(** The shapes as the specification words them: the assignment has a single
    target as well as a single source. *)
Definition spec_noiseShape (n : Node) : Prop :=
  (∃ e, n = ExprStmt e ∧ noiseCall e)
  ∨ (∃ l tok e, n = AssignStmt [l] tok [e] ∧ noiseCall e)
  ∨ (∃ f args, n = DeferStmt f args ∧ noiseCall (CallExpr f args)).

(** ** Go strings: the [strings] functions the program calls *)

Abbreviation bytes := String.list_ascii_of_string.
Abbreviation of_bytes := String.string_of_list_ascii.

(** [len(s)]: the number of bytes. *)
Definition len (s : string) : nat := String.length s.

(** [s[:n]], for [n <= len(s)] (the program slices under that guard). *)
Fixpoint slice_to (s : string) (n : nat) : string :=
  match n, s with
  | S k, String c s' => String c (slice_to s' k)
  | _, _ => EmptyString
  end.

(** [strings.ReplaceAll(s, old, new)] for a non-empty [old]: scan from the
    left, replace each non-overlapping occurrence. [skip] counts the bytes
    of the occurrence just replaced that are still to be passed over. *)
Fixpoint replaceFrom (old new : string) (skip : nat) (s : string) : string :=
  match s with
  | EmptyString => EmptyString
  | String c s' =>
      match skip with
      | S k => replaceFrom old new k s'
      | O =>
          if String.prefix old s
          then new +:+ replaceFrom old new (Nat.pred (String.length old)) s'
          else String c (replaceFrom old new O s')
      end
  end.

Definition ReplaceAll (s old new : string) : string := replaceFrom old new O s.

(** [strings.Join(elems, sep)]. *)
Fixpoint Join (elems : list string) (sep : string) : string :=
  match elems with
  | [] => EmptyString
  | [x] => x
  | x :: rest => x +:+ sep +:+ Join rest sep
  end.

(** The UTF-8 encodings of the code points for which [unicode.IsSpace]
    holds: U+0009..U+000D, U+0020, U+0085, U+00A0, U+1680, U+2000..U+200A,
    U+2028, U+2029, U+202F, U+205F, U+3000. *)
Definition spaceRunes : list (list ascii) :=
  [ ["009"]; ["010"]; ["011"]; ["012"]; ["013"]; ["032"];
    ["194"; "133"]; ["194"; "160"];
    ["225"; "154"; "128"];
    ["226"; "128"; "128"]; ["226"; "128"; "129"]; ["226"; "128"; "130"];
    ["226"; "128"; "131"]; ["226"; "128"; "132"]; ["226"; "128"; "133"];
    ["226"; "128"; "134"]; ["226"; "128"; "135"]; ["226"; "128"; "136"];
    ["226"; "128"; "137"]; ["226"; "128"; "138"];
    ["226"; "128"; "168"]; ["226"; "128"; "169"]; ["226"; "128"; "175"];
    ["226"; "129"; "159"];
    ["227"; "128"; "128"] ]%char.

Fixpoint hasPrefix (p l : list ascii) : bool :=
  match p, l with
  | [], _ => true
  | a :: p', b :: l' => Ascii.eqb a b && hasPrefix p' l'
  | _ :: _, [] => false
  end.

(** What is left of [l] after one leading pattern of [pats], if any. *)
Fixpoint stripOne (pats : list (list ascii)) (l : list ascii)
  : option (list ascii) :=
  match pats with
  | [] => None
  | p :: rest =>
      if hasPrefix p l then Some (drop (length p) l) else stripOne rest l
  end.

(** Strip leading patterns while there is one; every step removes at least
    one byte, so [length l] rounds are enough. *)
Fixpoint stripLeading (pats : list (list ascii)) (fuel : nat) (l : list ascii)
  : list ascii :=
  match fuel with
  | O => l
  | S k =>
      match stripOne pats l with
      | Some r => stripLeading pats k r
      | None => l
      end
  end.

Definition trimLeft (l : list ascii) : list ascii :=
  stripLeading spaceRunes (length l) l.

Definition trimRight (l : list ascii) : list ascii :=
  reverse (stripLeading (reverse <$> spaceRunes) (length l) (reverse l)).

(** [strings.TrimSpace(s)]: leading and trailing white space removed, white
    space being decoded from UTF-8 as Go does. *)
Definition TrimSpace (s : string) : string :=
  of_bytes (trimRight (trimLeft (bytes s))).

(** One-byte strings that cannot be written as literals. *)
Definition NL : string := String "010"%char EmptyString.
Definition TAB : string := String "009"%char EmptyString.
Definition DQ : string := String "034"%char EmptyString.

(** ** toNaturalLanguage and formatNodes *)

Section Printer.

(** [printRawNode]: the source text of a node as [go/printer] prints it. *)
Variable printRawNode : token.FileSet → Node → string.

Definition toNaturalLanguage (fset : token.FileSet) (n : Node) : string :=
  match n with
  | UnaryExpr token.NOT X => printRawNode fset X +:+ " is false"
  | BinaryExpr X Op Y =>
      let left := printRawNode fset X in
      let right := printRawNode fset Y in
      match Op with
      | token.EQL => left +:+ " equals " +:+ right
      | token.NEQ => left +:+ " does not equal " +:+ right
      | token.LSS => left +:+ " is less than " +:+ right
      | token.GTR => left +:+ " is greater than " +:+ right
      | token.LEQ => left +:+ " is at most " +:+ right
      | token.GEQ => left +:+ " is at least " +:+ right
      | token.LAND => left +:+ " AND " +:+ right
      | token.LOR => left +:+ " OR " +:+ right
      | _ => printRawNode fset n
      end
  | AssignStmt [l] _ [r] =>
      "Set " +:+ printRawNode fset l +:+ " to " +:+ printRawNode fset r
  | IncDecStmt X token.INC => "Increase " +:+ printRawNode fset X +:+ " by 1"
  | IncDecStmt X token.DEC => "Decrease " +:+ printRawNode fset X +:+ " by 1"
  | ReturnStmt (r :: rs) =>
      "Return " +:+ Join (printRawNode fset <$> (r :: rs)) ", "
  | ReturnStmt [] => "Return"
  | _ => printRawNode fset n
  end.

(** The five [ReplaceAll] calls of the loop body of [formatNodes]. *)
Definition normalize (s : string) : string :=
  let s := ReplaceAll s NL " " in
  let s := ReplaceAll s TAB EmptyString in
  let s := ReplaceAll s DQ "'" in
  let s := ReplaceAll s "{" EmptyString in
  ReplaceAll s "}" EmptyString.

(** The length cap of the loop body. *)
Definition truncate (s : string) : string :=
  if Nat.ltb 80 (len s) then slice_to s 77 +:+ "..." else s.

(** The whole loop body: what one phrase contributes to [lines]. *)
Definition formatLine (s : string) : string :=
  TrimSpace (truncate (normalize s)).

Definition formatNodes (fset : token.FileSet) (nodes : list Node) : string :=
  Join (formatLine ∘ toNaturalLanguage fset <$> nodes) "<br>".

End Printer.

(** ** Reading the label formatter byte by byte *)

Fixpoint mapBytes (f : ascii → string) (s : string) : string :=
  match s with
  | EmptyString => EmptyString
  | String c s' => f c +:+ mapBytes f s'
  end.

(** What the five replacements do to one byte: a newline becomes a space,
    a tab and the braces disappear, a double quote becomes a single one. *)
Definition normByte (c : ascii) : string :=
  if Ascii.eqb c "010" then " "
  else if Ascii.eqb c "009" then EmptyString
  else if Ascii.eqb c "034" then "'"
  else if Ascii.eqb c "{" || Ascii.eqb c "}" then EmptyString
  else String c EmptyString.

(** The same in the words of the specification: a tab becomes a space
    too. *)
Definition spec_normByte (c : ascii) : string :=
  if Ascii.eqb c "010" || Ascii.eqb c "009" then " "
  else if Ascii.eqb c "034" then "'"
  else if Ascii.eqb c "{" || Ascii.eqb c "}" then EmptyString
  else String c EmptyString.

(** The label of one phrase in the words of the specification. *)
Definition spec_formatLine (s : string) : string :=
  TrimSpace (truncate (mapBytes spec_normByte s)).

(** Leading white space only. *)
Definition TrimLeftSpace (s : string) : string :=
  of_bytes (trimLeft (bytes s)).

Definition startsWithSpace (s : string) : bool :=
  match stripOne spaceRunes (bytes s) with
  | Some _ => true
  | None => false
  end.

Definition endsWith (suffix s : string) : Prop :=
  ∃ front, s = front +:+ suffix.

Definition noDot (p : list ascii) : bool :=
  forallb (λ c, negb (Ascii.eqb c ".")) p.

Definition headNotDot (p : list ascii) : bool :=
  match p with
  | c :: _ => negb (Ascii.eqb c ".")
  | [] => false
  end.

Definition dots : list ascii := ["."; "."; "."]%char.

(** ** Control-flow graphs ([golang.org/x/tools/go/cfg]) *)

Module cfg.
(** [Succs] holds pointers: positions in the slice of blocks. *)
Record Block : Type := {
  Index : Z;
  Nodes : list Node;
  Succs : list nat
}.
End cfg.
Import cfg.

(** Running a piece of the program: a value, a run-time panic (nil
    dereference, index out of range), or a loop that has not stopped within
    the rounds it was given. *)
Inductive result (A : Type) : Type :=
| Ok (a : A)
| Panic
| OutOfFuel.
Arguments Ok {A} a.
Arguments Panic {A}.
Arguments OutOfFuel {A}.

#[global] Instance result_ret : MRet result := λ A a, Ok a.
#[global] Instance result_bind : MBind result := λ A B f r,
  match r with
  | Ok a => f a
  | Panic => Panic
  | OutOfFuel => OutOfFuel
  end.

(** Dereference of a block pointer. *)
Definition deref (g : list Block) (p : nat) : result Block :=
  match g !! p with
  | Some b => Ok b
  | None => Panic
  end.

Definition isEmptyPassThrough (b : Block) : bool :=
  Nat.eqb (length (Nodes b)) 0 && Nat.eqb (length (Succs b)) 1.

(** The loop of [resolveDestination], one round per unit of [fuel]. *)
Fixpoint resolveLoop (g : list Block) (fuel : nat) (visited : gmap Z bool)
    (curr : nat) : result nat :=
  match fuel with
  | O => OutOfFuel
  | S fuel' =>
      b ← deref g curr;
      if isEmptyPassThrough b then
        if default false (visited !! Index b) then Ok curr
        else
          match Succs b with
          | s :: _ => resolveLoop g fuel' (<[Index b := true]> visited) s
          | [] => Panic
          end
      else Ok curr
  end.

(** Every round but the last marks an index that was not marked, so one
    round more than there are blocks is enough (see [resolveLoop_stops]). *)
Definition resolveDestination (g : list Block) (b : nat) : result nat :=
  resolveLoop g (S (length g)) ∅ b.

Definition getEntryPoint (b : Block) : string :=
  if Nat.ltb 1 (length (Nodes b)) && Nat.eqb (length (Succs b)) 2
  then "B" +:+ pretty (Index b) +:+ "_setup"
  else "B" +:+ pretty (Index b).

Definition getStructuralLabel (block : Block) : string :=
  if Z.eqb (Index block) 0 then "Start"
  else if Nat.eqb (length (Succs block)) 0 then "End / Return"
  else if Nat.eqb (length (Succs block)) 2 then "Loop / Switch Entry"
  else "Merge Point".

(** ** The renderer *)

(** One constructor per format string written to the buffer. *)
Inductive Line : Type :=
| ClassDefs
| RootDecl (startFunc : string)
| RootEdge (target : string)
| SetupDecl (index : Z) (setupLabel : string)
| CondDecl (index : Z) (condLabel : string)
| SetupEdge (index : Z)
| BlockDecl (index : Z) (shapeStart label shapeEnd classStr : string)
| Edge (exitPoint arrow target : string).

Definition lineString (l : Line) : string :=
  match l with
  | ClassDefs =>
      "    classDef root fill:#007acc,stroke:#fff,stroke-width:2px,color:#fff;"
      +:+ NL +:+
      "    classDef endNode fill:#cc3300,stroke:#fff,stroke-width:2px,color:#fff;"
      +:+ NL +:+ NL
  | RootDecl startFunc =>
      "    ROOT([" +:+ DQ +:+ "func " +:+ startFunc +:+ DQ +:+ "]):::root" +:+ NL
  | RootEdge target => "    ROOT --> " +:+ target +:+ ";" +:+ NL
  | SetupDecl i setupLabel =>
      "    B" +:+ pretty i +:+ "_setup[" +:+ DQ +:+ setupLabel +:+ DQ +:+ "];"
      +:+ NL
  | CondDecl i condLabel =>
      "    B" +:+ pretty i +:+ "{" +:+ DQ +:+ condLabel +:+ DQ +:+ "};" +:+ NL
  | SetupEdge i =>
      "    B" +:+ pretty i +:+ "_setup --> B" +:+ pretty i +:+ ";" +:+ NL
  | BlockDecl i shapeStart label shapeEnd classStr =>
      "    B" +:+ pretty i +:+ shapeStart +:+ label +:+ shapeEnd +:+ classStr
      +:+ ";" +:+ NL
  | Edge exitPoint arrow target =>
      "    " +:+ exitPoint +:+ " " +:+ arrow +:+ " " +:+ target +:+ ";" +:+ NL
  end.

Fixpoint writeAll (ls : list Line) : string :=
  match ls with
  | [] => EmptyString
  | l :: rest => lineString l +:+ writeAll rest
  end.

(** A call that writes to [os.Stderr]: the text it has written and how the
    call ends. *)
Record Ran (A : Type) : Type := {
  written : string;
  outcome : result A
}.
Arguments written {A} r.
Arguments outcome {A} r.

Section Analyze.

Variable printRawNode : token.FileSet → Node → string.

(** The node declarations of one block (the [if isSplit] of the loop). *)
Definition blockDecls (fset : token.FileSet) (block : Block) : list Line :=
  let isSplit :=
    Nat.ltb 1 (length (Nodes block)) && Nat.eqb (length (Succs block)) 2 in
  if isSplit then
    let setupLabel :=
      formatNodes printRawNode fset
        (take (length (Nodes block) - 1) (Nodes block)) in
    let condLabel :=
      formatNodes printRawNode fset
        (drop (length (Nodes block) - 1) (Nodes block)) in
    [SetupDecl (Index block) setupLabel;
     CondDecl (Index block) condLabel;
     SetupEdge (Index block)]
  else
    let label := formatNodes printRawNode fset (Nodes block) in
    let label :=
      if Nat.eqb (length (Nodes block)) 0 then getStructuralLabel block
      else label in
    let shape :=
      if Nat.eqb (length (Succs block)) 2
      then ("{" +:+ DQ, DQ +:+ "}") else ("[" +:+ DQ, DQ +:+ "]") in
    let classStr :=
      if Nat.eqb (length (Succs block)) 0 then ":::endNode"
      else EmptyString in
    [BlockDecl (Index block) shape.1 label shape.2 classStr].

(** The edges out of one block (the [if len(block.Succs) == 1 ... else if]
    of the loop). *)
Definition blockEdges (g : list Block) (block : Block) : result (list Line) :=
  let exitPoint := "B" +:+ pretty (Index block) in
  match Succs block with
  | [s] =>
      p ← resolveDestination g s;
      dest ← deref g p;
      let arrow :=
        if Z.leb (Index dest) (Index block) then "-.->|Loop|" else "-->" in
      Ok [Edge exitPoint arrow (getEntryPoint dest)]
  | [s0; s1] =>
      pT ← resolveDestination g s0;
      destTrue ← deref g pT;
      pF ← resolveDestination g s1;
      destFalse ← deref g pF;
      let arrowTrue :=
        if Z.leb (Index destTrue) (Index block) then "-.->|Loop True|"
        else "-->|True|" in
      let arrowFalse :=
        if Z.leb (Index destFalse) (Index block) then "-.->|Loop False|"
        else "-->|False|" in
      Ok [Edge exitPoint arrowTrue (getEntryPoint destTrue);
          Edge exitPoint arrowFalse (getEntryPoint destFalse)]
  | _ => Ok []
  end.

(** One round of the loop over [flowGraph.Blocks]. *)
Definition renderBlock (fset : token.FileSet) (g : list Block)
    (block : Block) : result (list Line) :=
  if isEmptyPassThrough block then Ok []
  else
    edges ← blockEdges g block;
    Ok (blockDecls fset block ++ edges).

Fixpoint renderBlocks (fset : token.FileSet) (g : list Block)
    (blocks : list Block) : result (list Line) :=
  match blocks with
  | [] => Ok []
  | block :: rest =>
      ls ← renderBlock fset g block;
      more ← renderBlocks fset g rest;
      Ok (ls ++ more)
  end.

(** The pre-processing loop: [block.Nodes = filterNoise(block.Nodes)], in
    place, for every block. *)
Definition filterBlock (block : Block) : Block :=
  {| Index := Index block;
     Nodes := filterNoise (Nodes block);
     Succs := Succs block |}.

(** What [analyzeCFG] writes to [buf] once the graph is built. *)
Definition render (fset : token.FileSet) (flowGraph : list Block)
    (startFunc : string) : result (list Line) :=
  let g := filterBlock <$> flowGraph in
  p ← resolveDestination g 0;
  firstBlock ← deref g p;
  body ← renderBlocks fset g g;
  Ok ([ClassDefs; RootDecl startFunc; RootEdge (getEntryPoint firstBlock)]
      ++ body).

(** ** Loading and the search for the function *)

(** [Body] is a handle on the block statement, for [cfg.New]; it is [None]
    (nil) for a declaration without a body, such as a function implemented
    outside Go. *)
Record FuncDecl : Type := {
  Name : string;
  Body : option nat
}.

(** Top-level declarations; a function declaration cannot occur anywhere
    else in a file, so [ast.Inspect] meets exactly these, in order. *)
Inductive Decl : Type :=
| FuncD (fn : FuncDecl)
| GenD.

Record File : Type := { Decls : list Decl }.

Record Package : Type := {
  Syntax : list File;
  Fset : token.FileSet
}.

(** What [packages.Load] returns: the packages, whether [err != nil], and
    the errors that the packages carry, in the order [packages.PrintErrors]
    meets them. *)
Record Loaded : Type := {
  pkgs : list Package;
  err : bool;
  loadErrors : list string
}.

(** [packages.PrintErrors(pkgs)]: every error goes to [os.Stderr] on a line
    of its own; the text written and the number of errors. *)
Definition PrintErrors (l : Loaded) : string * nat :=
  (foldr (λ e rest, e +:+ NL +:+ rest) EmptyString (loadErrors l),
   length (loadErrors l)).

Variable packages_Load : string → Loaded.
Variable cfg_New : nat → list Block.

Definition target : Type := option (FuncDecl * token.FileSet).

(** The callback of [ast.Inspect], at a declaration. *)
Definition visitDecl (startFunc : string) (pkg : Package) (t : target)
    (d : Decl) : target :=
  match d with
  | FuncD fn =>
      if String.eqb (Name fn) startFunc then Some (fn, Fset pkg) else t
  | GenD => t
  end.

Definition visitFile (startFunc : string) (pkg : Package) (t : target)
    (file : File) : target :=
  foldl (visitDecl startFunc pkg) t (Decls file).

Definition visitPackage (startFunc : string) (t : target) (pkg : Package)
    : target :=
  foldl (visitFile startFunc pkg) t (Syntax pkg).

Definition findTarget (startFunc : string) (ps : list Package) : target :=
  foldl (visitPackage startFunc) None ps.

(** [analyzeCFG]: what it writes to [os.Stderr] (through
    [packages.PrintErrors], which is not called when [err != nil]) and the
    pair it returns (the text and the error, [None] for nil). [cfg.New]
    panics on a nil body. *)
Definition analyzeCFG (path startFunc : string)
    : Ran (string * option string) :=
  let l := packages_Load path in
  if err l then
    {| written := EmptyString;
       outcome := Ok (EmptyString, Some "failed to load packages") |}
  else
    let printed := PrintErrors l in
    if Nat.ltb 0 printed.2 then
      {| written := printed.1;
         outcome := Ok (EmptyString, Some "failed to load packages") |}
    else
      {| written := printed.1;
         outcome :=
           match findTarget startFunc (pkgs l) with
           | None =>
               Ok (EmptyString,
                   Some ("function '" +:+ startFunc +:+ "' not found"))
           | Some (targetDecl, fset) =>
               match Body targetDecl with
               | None => Panic
               | Some body =>
                   ls ← render fset (cfg_New body) startFunc;
                   Ok (writeAll ls, None)
               end
           end |}.

End Analyze.

(** ** Well-formed graphs and pass-through chains *)

(** What [cfg.New] guarantees of the blocks it returns: every successor
    points to a block of the slice, and [Index] is the position of the block
    in the slice. *)
Definition closed (g : list Block) : Prop :=
  Forall (λ b, Forall (λ s, (s < length g)%nat) (Succs b)) g.

Definition indexed (g : list Block) : Prop :=
  Index <$> g = Z.of_nat <$> seq 0 (length g).

(** [passThroughAt g p]: the block at [p] is an empty pass-through. *)
Definition passThroughAt (g : list Block) (p : nat) : bool :=
  match g !! p with
  | Some b => isEmptyPassThrough b
  | None => false
  end.

(** [chain g c path d]: starting at [c] and following the single successor
    of each block of [path], all of them pass-through blocks, one arrives
    at [d]. *)
Inductive chain (g : list Block) : nat → list nat → nat → Prop :=
| chain_here c : chain g c [] c
| chain_step c b s path d :
    g !! c = Some b →
    isEmptyPassThrough b = true →
    head (Succs b) = Some s →
    chain g s path d →
    chain g c (c :: path) d.

(** The map [visited] after the blocks of [path] have been marked. *)
Definition markAll (visited : gmap Z bool) (path : list nat) : gmap Z bool :=
  foldl (λ v p, <[Z.of_nat p := true]> v) visited path.

Definition marked (visited : gmap Z bool) (k : Z) : bool :=
  default false (visited !! k).

(** A pass-through block that lies on a cycle of pass-through blocks. *)
Definition onPassThroughCycle (g : list Block) (d : nat) : Prop :=
  ∃ path, chain g d (d :: path) d.

(** ** Reading the lines of a diagram *)

(** The block index a line declares a node for. *)
Definition declaredIndex (l : Line) : option Z :=
  match l with
  | SetupDecl i _ | CondDecl i _ | BlockDecl i _ _ _ _ => Some i
  | _ => None
  end.

Fixpoint declaredIndices (ls : list Line) : list Z :=
  match ls with
  | [] => []
  | l :: rest =>
      match declaredIndex l with
      | Some i => i :: declaredIndices rest
      | None => declaredIndices rest
      end
  end.

(** The node identifier a line declares, as its format string writes it. *)
Definition declaredId (l : Line) : option string :=
  match l with
  | RootDecl _ => Some "ROOT"
  | SetupDecl i _ => Some ("B" +:+ pretty i +:+ "_setup")
  | CondDecl i _ | BlockDecl i _ _ _ _ => Some ("B" +:+ pretty i)
  | _ => None
  end.

(** The target of an edge that leads to another block. *)
Definition edgeTarget (l : Line) : option string :=
  match l with
  | RootEdge t | Edge _ _ t => Some t
  | _ => None
  end.

Definition isEdge (l : Line) : bool :=
  match l with
  | Edge _ _ _ => true
  | _ => false
  end.

(** The split condition. *)
Definition splits (b : Block) : Prop :=
  (1 < length (Nodes b))%nat ∧ length (Succs b) = 2%nat.

(** Edge classification in the words of the specification: a function of
    the two indices, and one table of arrows for the three kinds of
    successor. *)
Inductive Branch : Type := Only | OnTrue | OnFalse.

Definition spec_isLoop (source target : Z) : bool := Z.leb target source.

Definition spec_arrow (br : Branch) (loop : bool) : string :=
  match br, loop with
  | Only, true => "-.->|Loop|"
  | Only, false => "-->"
  | OnTrue, true => "-.->|Loop True|"
  | OnTrue, false => "-->|True|"
  | OnFalse, true => "-.->|Loop False|"
  | OnFalse, false => "-->|False|"
  end.

Definition spec_edge (block : Block) (br : Branch) (dest : Block) : Line :=
  Edge ("B" +:+ pretty (Index block))
       (spec_arrow br (spec_isLoop (Index block) (Index dest)))
       (getEntryPoint dest).

(** [resolvesTo g s dest]: [resolveDestination] takes the pointer [s] to
    the block [dest]. *)
Definition resolvesTo (g : list Block) (s : nat) (dest : Block) : Prop :=
  ∃ p, resolveDestination g s = Ok p ∧ g !! p = Some dest.

(** [branchOf succs br s]: [s] is the successor that the branch [br] of a
    block with successors [succs] leads to. *)
Definition branchOf (succs : list nat) (br : Branch) (s : nat) : Prop :=
  match br with
  | Only => succs = [s]
  | OnTrue => ∃ s', succs = [s; s']
  | OnFalse => ∃ s', succs = [s'; s]
  end.

(** ** The declarations with the requested name *)

Definition matchesOf (startFunc : string) (pkg : Package) (d : Decl)
    : list (FuncDecl * token.FileSet) :=
  match d with
  | FuncD fn =>
      if String.eqb (Name fn) startFunc then [(fn, Fset pkg)] else []
  | GenD => []
  end.

(** All of them across the loaded packages, in the order of the traversal:
    packages, then files, then declarations. *)
Definition matching (startFunc : string) (ps : list Package)
    : list (FuncDecl * token.FileSet) :=
  pkg ← ps; file ← Syntax pkg; d ← Decls file; matchesOf startFunc pkg d.

(** [orElse o t]: [o] when there is one, [t] otherwise. *)
Definition orElse {A} (o t : option A) : option A :=
  match o with
  | Some x => Some x
  | None => t
  end.

(** ** Concrete inputs used in the examples *)

(** A printer for the examples: identifiers print as their name, the node
    [Other 0] stands for the function literal [func() {}]. *)
Definition samplePrinter (fset : token.FileSet) (n : Node) : string :=
  match n with
  | Ident name => name
  | Other O => "func() {}"
  | _ => "_"
  end.

Definition sampleFset : token.FileSet := {| token.fsetId := 0 |}.

(** [ctx, span := tracing.Start(ctx)] *)
Definition startSpan : Node :=
  AssignStmt [Ident "ctx"; Ident "span"] token.DEFINE
    [CallExpr (SelectorExpr (Ident "tracing") "Start") [Ident "ctx"]].

(** [x := func() {}] *)
Definition assignFuncLit : Node :=
  AssignStmt [Ident "x"] token.DEFINE [Other 0].

(** The same with a target of 66 bytes. *)
Definition longName : string :=
  "handlerForIncomingConnectionWithRetriesAndExponentialBackoffPolicy".

Definition assignFuncLitLong : Node :=
  AssignStmt [Ident longName] token.DEFINE [Other 0].

(** The graph of [func f() { for {} }]: the entry block, the loop body
    (which jumps to itself) and the block after the loop. *)
Definition foreverGraph : list Block :=
  [ {| Index := 0; Nodes := []; Succs := [1%nat] |};
    {| Index := 1; Nodes := []; Succs := [1%nat] |};
    {| Index := 2; Nodes := []; Succs := [] |} ].

(** A graph with a block to split, a noise statement, a pass-through block
    and a back edge. *)
Definition sampleGraph : list Block :=
  [ {| Index := 0;
       Nodes := [AssignStmt [Ident "x"] token.DEFINE [Ident "y"];
                 ExprStmt (CallExpr (SelectorExpr (Ident "log") "Info")
                                    [Ident "x"]);
                 BinaryExpr (Ident "x") token.GTR (Ident "n")];
       Succs := [1%nat; 2%nat] |};
    {| Index := 1; Nodes := [ReturnStmt [Ident "x"]]; Succs := [] |};
    {| Index := 2; Nodes := []; Succs := [3%nat] |};
    {| Index := 3; Nodes := [IncDecStmt (Ident "x") token.INC];
       Succs := [0%nat] |} ].

(** [sampleGraph] after the noise filter, and its entry block. *)
Definition sampleFiltered : list Block := filterBlock <$> sampleGraph.

Definition sampleEntry : Block :=
  {| Index := 0;
     Nodes := [AssignStmt [Ident "x"] token.DEFINE [Ident "y"];
               BinaryExpr (Ident "x") token.GTR (Ident "n")];
     Succs := [1%nat; 2%nat] |}.

(** What the renderer writes for [sampleGraph] and for [foreverGraph]. *)
Definition sampleLines : list Line :=
  [ClassDefs; RootDecl "f"; RootEdge "B0_setup";
   SetupDecl 0 "Set x to y"; CondDecl 0 "x is greater than n"; SetupEdge 0;
   Edge "B0" "-->|True|" "B1"; Edge "B0" "-->|False|" "B3";
   BlockDecl 1 ("[" +:+ DQ) "Return x" (DQ +:+ "]") ":::endNode";
   BlockDecl 3 ("[" +:+ DQ) "Increase x by 1" (DQ +:+ "]") EmptyString;
   Edge "B3" "-.->|Loop|" "B0_setup"].

Definition foreverLines : list Line :=
  [ClassDefs; RootDecl "f"; RootEdge "B1";
   BlockDecl 2 ("[" +:+ DQ) "End / Return" (DQ +:+ "]") ":::endNode"].

(** Two packages that each declare a function [f], as the packages under
    [cmd/] of a module do with [main]. *)
Definition twoPackages : Loaded :=
  {| pkgs :=
       [ {| Syntax := [ {| Decls := [GenD; FuncD {| Name := "f"; Body := Some 0%nat |}] |} ];
            Fset := sampleFset |};
         {| Syntax := [ {| Decls := [FuncD {| Name := "g"; Body := Some 2%nat |}] |};
                        {| Decls := [FuncD {| Name := "f"; Body := Some 1%nat |}] |} ];
            Fset := sampleFset |} ];
     err := false;
     loadErrors := [] |}.

Definition sampleLoad (path : string) : Loaded := twoPackages.

(** The graphs of the bodies: [sampleGraph] for the first [f],
    [foreverGraph] for everything else. *)
Definition sampleNew (body : nat) : list Block :=
  match body with
  | O => sampleGraph
  | _ => foreverGraph
  end.

(** ** Labels that are safe inside a Mermaid node *)

(** The bytes that would end or break the quoted text of a node: newline,
    tab, double quote and the braces. *)
Definition unsafeByte (c : ascii) : bool :=
  Ascii.eqb c "010" || Ascii.eqb c "009" || Ascii.eqb c "034"
  || Ascii.eqb c "{" || Ascii.eqb c "}".

Definition safeLabel (s : string) : Prop :=
  Forall (λ c, unsafeByte c = false) (bytes s).

(** The label a line gives to the node it declares. *)
Definition labelOf (l : Line) : option string :=
  match l with
  | SetupDecl _ label | CondDecl _ label | BlockDecl _ _ label _ _ =>
      Some label
  | _ => None
  end.



Definition keyId (k : Z * bool) : string :=
  if k.2 then "B" +:+ pretty k.1 +:+ "_setup" else "B" +:+ pretty k.1.

(** How many of the lines are edges to a successor. *)
Definition countEdges (ls : list Line) : nat :=
  sum_list_with (λ l, if isEdge l then 1%nat else 0%nat) ls.

(** The direct operands of a node: the sub-nodes [toNaturalLanguage] hands
    to the printer. *)
Definition operands (n : Node) : list Node :=
  match n with
  | UnaryExpr _ X => [X]
  | BinaryExpr X _ Y => [X; Y]
  | AssignStmt Lhs _ Rhs => Lhs ++ Rhs
  | IncDecStmt X _ => [X]
  | ReturnStmt Results => Results
  | _ => []
  end.

(** ** main *)

(** The values of the flags and the remaining arguments, as [flag.Parse]
    leaves them: the value of each flag when it was given. *)
Record Flags : Type := {
  startFlag : option string;
  outFlag : option string;
  Args : list string
}.

(** How [flag.Parse] ends on the command line of the process: it returns;
    or it was asked for help, prints the usage to [os.Stderr] and exits with
    status 0; or it meets a bad flag, prints its report to [os.Stderr] and
    exits with status 2. *)
Inductive Parsed : Type :=
| Parsed_ok (flags : Flags)
| Parsed_help (usage : string)
| Parsed_error (report : string).

(** What the process can write to: the two streams and the files. *)
Record World : Type := {
  stdout : string;
  stderr : string;
  files : gmap string string
}.

(** The fenced text of [main]: the Sprintf around [mermaidCode]. *)
Definition fence (mermaidCode : string) : string :=
  "```mermaid" +:+ NL +:+ "flowchart TD;" +:+ NL +:+ mermaidCode +:+ "```"
  +:+ NL.

Section Main.

Variable printRawNode : token.FileSet → Node → string.
Variable packages_Load : string → Loaded.
Variable cfg_New : nat → list Block.

(** [os.WriteFile(name, data, 0644)]: the files afterwards and the error. *)
Variable os_WriteFile :
  gmap string string → string → string → gmap string string * option string.

(** [main]: the world it leaves and the exit status (0 for a return, the
    argument of [os.Exit] otherwise); [Panic] when the analysis panics. *)
Definition main (cmd : Parsed) (w : World) : result (World * Z) :=
  match cmd with
  | Parsed_help usage =>
      Ok ({| stdout := stdout w;
             stderr := stderr w +:+ usage;
             files := files w |}, 0)
  | Parsed_error report =>
      Ok ({| stdout := stdout w;
             stderr := stderr w +:+ report;
             files := files w |}, 2)
  | Parsed_ok flags =>
      let startFunc := default "main" (startFlag flags) in
      let outFile := default "flow.md" (outFlag flags) in
      let targetDir :=
        match Args flags with
        | a :: _ => a
        | [] => "."
        end in
      let ran :=
        analyzeCFG printRawNode packages_Load cfg_New targetDir startFunc in
      r ← outcome ran;
      match r.2 with
      | Some e =>
          Ok ({| stdout := stdout w;
                 stderr := stderr w +:+ written ran +:+ "Error: " +:+ e
                           +:+ NL;
                 files := files w |}, 1)
      | None =>
          let output := fence r.1 in
          if String.eqb outFile "-" then
            Ok ({| stdout := stdout w +:+ output +:+ NL;
                   stderr := stderr w +:+ written ran;
                   files := files w |}, 0)
          else
            let saved := os_WriteFile (files w) outFile output in
            match saved.2 with
            | Some e =>
                Ok ({| stdout := stdout w;
                       stderr := stderr w +:+ written ran
                                 +:+ "Error writing file: " +:+ e +:+ NL;
                       files := saved.1 |}, 1)
            | None =>
                Ok ({| stdout := stdout w +:+ "Successfully generated "
                                 +:+ outFile +:+ " for function "
                                 +:+ startFunc +:+ "()" +:+ NL;
                       stderr := stderr w +:+ written ran;
                       files := saved.1 |}, 0)
            end
      end
  end.

End Main.

(** The directory [main] analyses, the function it looks for and the file
    it writes, with the defaults of the flags. *)
Definition targetDirOf (flags : Flags) : string :=
  match Args flags with
  | a :: _ => a
  | [] => "."
  end.

Definition startFuncOf (flags : Flags) : string :=
  default "main" (startFlag flags).

Definition outFileOf (flags : Flags) : string :=
  default "flow.md" (outFlag flags).

(** A file system for the examples: every path can be written but the
    empty one. *)
Definition sampleWriteFile (fs : gmap string string) (name data : string)
    : gmap string string * option string :=
  if String.eqb name EmptyString then (fs, Some "open : no such file or directory")
  else (<[name := data]> fs, None).

Definition emptyWorld : World :=
  {| stdout := EmptyString; stderr := EmptyString; files := ∅ |}.

Definition noFlags : Flags :=
  {| startFlag := None; outFlag := None; Args := [] |}.

Definition flagsFor (startFunc : string) : Flags :=
  {| startFlag := Some startFunc; outFlag := None; Args := [] |}.

(** A second printer, which differs from [samplePrinter] on calls only. *)
Definition callPrinter (fset : token.FileSet) (n : Node) : string :=
  match n with
  | CallExpr _ _ => "call()"
  | _ => samplePrinter fset n
  end.

(** [!(f())] *)
Definition notCall : Node :=
  UnaryExpr token.NOT (UnaryExpr token.NOT (CallExpr (Ident "f") [])).

(** A tree that loads with two errors, and a tree whose only function [f]
    has no body. *)
Definition brokenLoad (path : string) : Loaded :=
  {| pkgs := [];
     err := false;
     loadErrors := ["a.go:3:2: undefined: x"; "b.go:1:1: expected package"] |}.


(** The world after a run on [brokenLoad] from [emptyWorld]. *)
Definition brokenWorld : World :=
  {| stdout := EmptyString;
     stderr := "a.go:3:2: undefined: x" +:+ NL
               +:+ "b.go:1:1: expected package" +:+ NL
               +:+ "Error: failed to load packages" +:+ NL;
     files := ∅ |}.

(** * Properties *)

(** ** The noise filter *)

Lemma denied_denylist name : denied name = true ↔ name ∈ denylist.
Proof.
  unfold denied, denylist.
  rewrite !orb_true_iff, !String.eqb_eq, !elem_of_cons, elem_of_nil.
  tauto.
Qed.

Lemma noiseCall_head e :
  noiseCall e ↔
  match e with
  | CallExpr (SelectorExpr (Ident name) _) _ => denied name = true
  | _ => False
  end.
Proof.
  split.
  - intros (name & sel & args & -> & Hin). by apply denied_denylist.
  - destruct e as [| |f args| | | | | | | |]; try done.
    destruct f as [|x sel| | | | | | | | |]; try done.
    destruct x as [name| | | | | | | | | |]; try done.
    intros Hd. exists name, sel, args. split; [done|]. by apply denied_denylist.
Qed.

Lemma isNoise_head n :
  isNoise n = true ↔ ∃ e, headExpr n = Some e ∧ noiseCall e.
Proof.
  unfold isNoise. split.
  - destruct (headExpr n) as [e|]; [|done]. intros H. exists e. split; [done|].
    apply noiseCall_head.
    destruct e as [| |f args| | | | | | | |]; try done.
    destruct f as [|x sel| | | | | | | | |]; try done.
    by destruct x.
  - intros (e & -> & (name & sel & args & -> & Hin)). by apply denied_denylist.
Qed.

Lemma headExpr_shape n e :
  headExpr n = Some e ↔
  n = ExprStmt e ∨ (∃ lhs tok, n = AssignStmt lhs tok [e])
  ∨ (∃ f args, n = DeferStmt f args ∧ e = CallExpr f args).
Proof.
  split.
  - destruct n as [| | | | |x|lhs tok rhs|f args| | |]; simpl; try done.
    + intros [= ->]. by left.
    + destruct rhs as [|r [|]]; try done. intros [= ->]. right; left. eauto.
    + intros [= <-]. right; right. eauto.
  - intros [->|[(lhs & tok & ->)|(f & args & -> & ->)]]; done.
Qed.

Lemma isNoise_noiseShape n : isNoise n = true ↔ noiseShape n.
Proof.
  rewrite isNoise_head. unfold noiseShape. split.
  - intros (e & Hh & Hc). apply headExpr_shape in Hh.
    destruct Hh as [->|[(lhs & tok & ->)|(f & args & -> & ->)]]; eauto 10.
  - intros [(e & -> & H)|[(lhs & tok & e & -> & H)|(f & args & -> & H)]];
      eexists; (split; [reflexivity|done]).
Qed.

#[global] Instance noiseShape_dec n : Decision (noiseShape n).
Proof.
  destruct (isNoise n) eqn:E.
  - left. by apply isNoise_noiseShape.
  - right. intros H%isNoise_noiseShape. congruence.
Defined.

Lemma filterNoise_filter nodes :
  filterNoise nodes = filter (λ n, ¬ noiseShape n) nodes.
Proof.
  induction nodes as [|n rest IH]; [done|]. simpl.
  destruct (isNoise n) eqn:E.
  - rewrite filter_cons_False; [done|].
    intros H. apply H. by apply isNoise_noiseShape.
  - rewrite filter_cons_True; [by rewrite IH|].
    intros H%isNoise_noiseShape. congruence.
Qed.

(** C2 (as the program has it). The noise filter returns a subsequence of
    its input in the original order: exactly the nodes that are not noise,
    where a node is noise when it is an expression statement, an assignment
    with a single source (and any number of targets), or a deferred call,
    and the call at its head has for callee a selector on an identifier of
    the denylist. *)
Theorem filterNoise_keeps_exactly_non_noise (nodes : list Node) :
  filterNoise nodes = filter (λ n, ¬ noiseShape n) nodes
  ∧ filterNoise nodes `sublist_of` nodes
  ∧ ∀ n, n ∈ filterNoise nodes ↔ n ∈ nodes ∧ ¬ noiseShape n.
Proof.
  rewrite filterNoise_filter. split; [done|]. split.
  - apply sublist_filter.
  - intros n. rewrite list_elem_of_filter. tauto.
Qed.

(** C2, as stated, fails on [ctx, span := tracing.Start(ctx)]: the
    assignment has two targets, so it is none of the three shapes of the
    claim, and the filter drops it. *)
Lemma filterNoise_drops_multi_target_assignment :
  ¬ spec_noiseShape startSpan
  ∧ startSpan ∈ [Ident "x"; startSpan]
  ∧ filterNoise [Ident "x"; startSpan] = [Ident "x"].
Proof.
  split; [|split].
  - intros [(e & H & _)|[(l & tok & e & H & _)|(f & args & H & _)]];
      discriminate H.
  - apply list_elem_of_In. simpl. auto.
  - reflexivity.
Qed.

(** ** Go strings *)

Lemma app_cons c s t : String c s +:+ t = String c (s +:+ t).
Proof. reflexivity. Qed.

Lemma app_empty_l s : EmptyString +:+ s = s.
Proof. reflexivity. Qed.

Lemma app_empty_r s : s +:+ EmptyString = s.
Proof. induction s as [|c s IH]; [done|]. by rewrite app_cons, IH. Qed.

Lemma app_assoc' s t u : (s +:+ t) +:+ u = s +:+ t +:+ u.
Proof. induction s as [|c s IH]; [done|]. by rewrite !app_cons, IH. Qed.

Lemma len_bytes s : len s = length (bytes s).
Proof. induction s as [|c s IH]; simpl; [done|]. by rewrite <- IH. Qed.

Lemma len_of_bytes l : len (of_bytes l) = length l.
Proof.
  by rewrite len_bytes, String.list_ascii_of_string_of_list_ascii.
Qed.

Lemma bytes_app s t : bytes (s +:+ t) = bytes s ++ bytes t.
Proof. induction s as [|c s IH]; [done|]. rewrite app_cons. simpl. by f_equal. Qed.

Lemma of_bytes_app l k : of_bytes (l ++ k) = of_bytes l +:+ of_bytes k.
Proof. induction l as [|c l IH]; [done|]. simpl. by rewrite app_cons, IH. Qed.

Lemma len_app s t : len (s +:+ t) = (len s + len t)%nat.
Proof. by rewrite !len_bytes, bytes_app, length_app. Qed.

Lemma bytes_slice_to s n : bytes (slice_to s n) = take n (bytes s).
Proof.
  revert s. induction n as [|n IH]; intros [|c s]; simpl; try done.
  by rewrite IH.
Qed.

Lemma len_slice_to s n : (n ≤ len s)%nat → len (slice_to s n) = n.
Proof.
  rewrite !len_bytes, bytes_slice_to. intros H. by rewrite length_take_le.
Qed.

(** *** ReplaceAll with a one-byte pattern *)

Lemma mapBytes_app f s t : mapBytes f (s +:+ t) = mapBytes f s +:+ mapBytes f t.
Proof.
  induction s as [|c s IH]; [done|].
  rewrite app_cons. simpl. by rewrite IH, app_assoc'.
Qed.

Lemma mapBytes_ext f g s : (∀ c, f c = g c) → mapBytes f s = mapBytes g s.
Proof. intros H. induction s as [|c s IH]; [done|]. simpl. by rewrite H, IH. Qed.

Lemma mapBytes_compose f g s :
  mapBytes f (mapBytes g s) = mapBytes (λ c, mapBytes f (g c)) s.
Proof.
  induction s as [|c s IH]; [done|]. simpl. by rewrite mapBytes_app, IH.
Qed.

Lemma ReplaceAll_byte a new s :
  ReplaceAll s (String a EmptyString) new =
  mapBytes (λ c, if Ascii.eqb a c then new else String c EmptyString) s.
Proof.
  unfold ReplaceAll. induction s as [|c s IH]; [done|].
  cbn [replaceFrom mapBytes String.prefix String.length Nat.pred].
  destruct (ascii_dec a c) as [->|Hne].
  - rewrite Ascii.eqb_refl.
    replace (String.prefix EmptyString s) with true by (by destruct s).
    by rewrite IH.
  - apply Ascii.eqb_neq in Hne. rewrite Hne. by rewrite IH, app_cons.
Qed.

Lemma normalize_bytewise s : normalize s = mapBytes normByte s.
Proof.
  unfold normalize, NL, TAB, DQ.
  rewrite !ReplaceAll_byte, !mapBytes_compose.
  apply mapBytes_ext.
  intros [[] [] [] [] [] [] [] []]; vm_compute; reflexivity.
Qed.

(** *** TrimSpace *)

Lemma hasPrefix_length p l : hasPrefix p l = true → (length p ≤ length l)%nat.
Proof.
  revert l. induction p as [|a p IH]; intros [|b l]; simpl; try done; try lia.
  intros [_ H]%andb_true_iff. apply IH in H. lia.
Qed.

Lemma hasPrefix_app_dot p x t :
  noDot p = true → hasPrefix p (x ++ "."%char :: t) = hasPrefix p x.
Proof.
  revert x. induction p as [|a p IH]; intros x Hp; [done|].
  simpl in Hp. apply andb_true_iff in Hp as [Ha Hp].
  destruct x as [|b x]; simpl.
  - apply negb_true_iff in Ha. by rewrite Ha.
  - by rewrite IH.
Qed.

Lemma hasPrefix_take p l n :
  hasPrefix p (take n l) = true → hasPrefix p l = true.
Proof.
  revert l n. induction p as [|a p IH]; intros l n; [done|].
  destruct n as [|n], l as [|b l]; simpl; try done.
  intros [-> H]%andb_true_iff. simpl. by eapply IH.
Qed.

Lemma stripOne_app_dot pats x t :
  forallb noDot pats = true →
  stripOne pats (x ++ "."%char :: t) =
  (λ r, r ++ "."%char :: t) <$> stripOne pats x.
Proof.
  induction pats as [|p pats IH]; intros Hp; [done|].
  simpl in Hp. apply andb_true_iff in Hp as [Hd Hp]. simpl.
  rewrite (hasPrefix_app_dot _ _ _ Hd).
  destruct (hasPrefix p x) eqn:E; [|by apply IH].
  simpl. f_equal. apply drop_app_le. by apply hasPrefix_length.
Qed.

Lemma stripOne_head_dot pats l :
  forallb headNotDot pats = true → stripOne pats ("."%char :: l) = None.
Proof.
  induction pats as [|p pats IH]; intros Hp; [done|].
  simpl in Hp. apply andb_true_iff in Hp as [Hd Hp]. simpl.
  destruct p as [|a p]; [done|]. simpl in *.
  apply negb_true_iff in Hd. rewrite Hd. simpl. by apply IH.
Qed.

Lemma stripOne_shorter pats l r :
  forallb headNotDot pats = true →
  stripOne pats l = Some r → (length r < length l)%nat.
Proof.
  induction pats as [|p pats IH]; intros Hp; [done|].
  simpl in Hp. apply andb_true_iff in Hp as [Hd Hp]. simpl.
  destruct (hasPrefix p l) eqn:E; [|by apply IH].
  intros [= <-]. apply hasPrefix_length in E.
  destruct p as [|a p]; [done|]. rewrite length_drop. simpl in *. lia.
Qed.

Lemma stripOne_suffix pats l r :
  stripOne pats l = Some r → ∃ k, r = drop k l.
Proof.
  induction pats as [|p pats IH]; [done|]. simpl.
  destruct (hasPrefix p l); [|done]. intros [= <-]. eauto.
Qed.

Lemma stripOne_take pats l n :
  stripOne pats l = None → stripOne pats (take n l) = None.
Proof.
  induction pats as [|p pats IH]; [done|]. simpl.
  destruct (hasPrefix p l) eqn:E; [done|]. intros H.
  destruct (hasPrefix p (take n l)) eqn:E'; [|by apply IH].
  apply hasPrefix_take in E'. congruence.
Qed.

Lemma stripLeading_fuel pats f1 f2 l :
  forallb headNotDot pats = true →
  (length l ≤ f1)%nat → (length l ≤ f2)%nat →
  stripLeading pats f1 l = stripLeading pats f2 l.
Proof.
  intros Hp. revert f2 l.
  induction f1 as [|f1 IH]; intros [|f2] l H1 H2; simpl; try done.
  - destruct (stripOne pats l) as [r|] eqn:E; [|done].
    apply stripOne_shorter in E; [lia|done].
  - destruct (stripOne pats l) as [r|] eqn:E; [|done].
    apply stripOne_shorter in E; [lia|done].
  - destruct (stripOne pats l) as [r|] eqn:E; [|done].
    pose proof (stripOne_shorter _ _ _ Hp E). apply IH; lia.
Qed.

Lemma stripLeading_app_dot pats fuel x t :
  forallb noDot pats = true →
  stripLeading pats fuel (x ++ "."%char :: t) =
  stripLeading pats fuel x ++ "."%char :: t.
Proof.
  intros Hp. revert x. induction fuel as [|fuel IH]; intros x; [done|].
  simpl. rewrite stripOne_app_dot by done.
  destruct (stripOne pats x) as [r|]; simpl; [apply IH|done].
Qed.

Lemma stripLeading_length pats fuel l :
  (length (stripLeading pats fuel l) ≤ length l)%nat.
Proof.
  revert l. induction fuel as [|fuel IH]; intros l; simpl; [done|].
  destruct (stripOne pats l) as [r|] eqn:E; [|done].
  apply stripOne_suffix in E as [k ->].
  etrans; [apply IH|]. rewrite length_drop. lia.
Qed.

Lemma spaceRunes_noDot : forallb noDot spaceRunes = true.
Proof. reflexivity. Qed.

Lemma spaceRunes_head : forallb headNotDot spaceRunes = true.
Proof. reflexivity. Qed.

Lemma spaceRunes_rev_head : forallb headNotDot (reverse <$> spaceRunes) = true.
Proof. reflexivity. Qed.

Lemma trimLeft_dots x : trimLeft (x ++ dots) = trimLeft x ++ dots.
Proof.
  unfold trimLeft, dots.
  rewrite stripLeading_app_dot by apply spaceRunes_noDot.
  f_equal. apply stripLeading_fuel; [apply spaceRunes_head| |done].
  rewrite length_app. lia.
Qed.

Lemma stripLeading_head_dot pats fuel l :
  forallb headNotDot pats = true →
  stripLeading pats fuel ("."%char :: l) = "."%char :: l.
Proof.
  intros Hp. destruct fuel as [|fuel]; simpl; [done|].
  by rewrite stripOne_head_dot.
Qed.

Lemma trimRight_dots x : trimRight (x ++ dots) = x ++ dots.
Proof.
  unfold trimRight.
  assert (reverse (x ++ dots) = "."%char :: (["."; "."]%char ++ reverse x))
    as H by (rewrite reverse_app; reflexivity).
  rewrite H, stripLeading_head_dot by apply spaceRunes_rev_head.
  by rewrite <- H, reverse_involutive.
Qed.

Lemma trimLeft_length l : (length (trimLeft l) ≤ length l)%nat.
Proof. apply stripLeading_length. Qed.

Lemma trimLeft_no_space l : stripOne spaceRunes l = None → trimLeft l = l.
Proof.
  unfold trimLeft. intros H. destruct (length l); cbn [stripLeading]; [done|].
  by rewrite H.
Qed.

Lemma TrimSpace_ellipsis s :
  TrimSpace (s +:+ "...") = TrimLeftSpace s +:+ "...".
Proof.
  unfold TrimSpace, TrimLeftSpace. rewrite bytes_app.
  change (bytes "...") with dots.
  by rewrite trimLeft_dots, trimRight_dots, of_bytes_app.
Qed.

Lemma TrimLeftSpace_len s : (len (TrimLeftSpace s) ≤ len s)%nat.
Proof.
  unfold TrimLeftSpace. rewrite len_of_bytes, len_bytes. apply trimLeft_length.
Qed.

Lemma TrimLeftSpace_id s : startsWithSpace s = false → TrimLeftSpace s = s.
Proof.
  unfold startsWithSpace, TrimLeftSpace. intros H.
  destruct (stripOne spaceRunes (bytes s)) eqn:E; [done|].
  by rewrite trimLeft_no_space, String.string_of_list_ascii_of_string.
Qed.

Lemma startsWithSpace_slice_to s n :
  startsWithSpace s = false → startsWithSpace (slice_to s n) = false.
Proof.
  unfold startsWithSpace. rewrite bytes_slice_to.
  destruct (stripOne spaceRunes (bytes s)) eqn:E; [done|].
  intros _. by rewrite stripOne_take.
Qed.

(** ** The label formatter *)

(** C7 (as the program has it). The formatter replaces each newline of a
    phrase by a single space and deletes each tab (two words separated only
    by a tab are joined), replaces each double quote by a single quote and
    deletes the braces; the result is then capped at 80 bytes and trimmed of
    surrounding white space. *)
Theorem formatLine_bytewise (s : string) :
  normalize s = mapBytes normByte s
  ∧ formatLine s = TrimSpace (truncate (mapBytes normByte s))
  ∧ normByte "010" = " " ∧ normByte "009" = EmptyString
  ∧ normByte "034" = "'"
  ∧ normByte "{" = EmptyString ∧ normByte "}" = EmptyString.
Proof.
  split; [apply normalize_bytewise|].
  split; [unfold formatLine; by rewrite normalize_bytewise|].
  repeat split.
Qed.

(** C7, as stated, fails on two words separated by a tab: the label joins
    them, where the claim keeps them apart by one space. The same happens
    to the field [a int] of a struct type, which the printer aligns with a
    tab. *)
Lemma formatLine_tab_joins_words :
  formatLine ("a" +:+ TAB +:+ "b") = "ab"
  ∧ spec_formatLine ("a" +:+ TAB +:+ "b") = "a b"
  ∧ formatLine ("struct {" +:+ NL +:+ TAB +:+ "a" +:+ TAB +:+ "int" +:+ NL
                +:+ "}") = "struct  aint"
  ∧ spec_formatLine ("struct {" +:+ NL +:+ TAB +:+ "a" +:+ TAB +:+ "int"
                     +:+ NL +:+ "}") = "struct   a int".
Proof. repeat split; vm_compute; reflexivity. Qed.

(** C6 (as the program has it). Let [n] be the phrase after the five
    replacements. When [n] is longer than 80 bytes the label is the first
    77 bytes of [n], trimmed of leading white space, followed by the
    ellipsis: it ends with the ellipsis and has at most 80 bytes, exactly 80
    when [n] does not start with white space. When [n] has at most 80 bytes
    the label is [n] trimmed of surrounding white space. *)
Theorem formatLine_length_cap (s : string) :
  let n := normalize s in
  ((80 < len n)%nat →
     formatLine s = TrimLeftSpace (slice_to n 77) +:+ "..."
     ∧ endsWith "..." (formatLine s)
     ∧ (len (formatLine s) ≤ 80)%nat
     ∧ (startsWithSpace n = false →
        formatLine s = slice_to n 77 +:+ "..."
        ∧ len (formatLine s) = 80%nat))
  ∧ ((len n ≤ 80)%nat → formatLine s = TrimSpace n).
Proof.
  intros n. unfold formatLine, truncate. fold n. split.
  - intros Hlen. apply Nat.ltb_lt in Hlen as Hb. rewrite Hb.
    rewrite TrimSpace_ellipsis.
    assert (len (slice_to n 77) = 77%nat) as H77
      by (apply len_slice_to; lia).
    split; [done|]. split; [by eexists|]. split.
    + rewrite len_app. pose proof (TrimLeftSpace_len (slice_to n 77)).
      change (len "...") with 3%nat. lia.
    + intros Hs.
      rewrite TrimLeftSpace_id by (by apply startsWithSpace_slice_to).
      split; [done|]. rewrite len_app, H77. reflexivity.
  - intros Hlen. apply Nat.ltb_ge in Hlen. by rewrite Hlen.
Qed.

(** C6, as stated, fails whichever way the normalized form is read.
    [x := func() {}] humanizes to a phrase of 18 bytes, and its label is
    not the phrase after the replacements: the trailing space that the
    braces leave is trimmed. With a target of 66 bytes the phrase, fully
    normalized (trimmed), has exactly 80 bytes, and its label is not that
    form: the cap is applied before the trailing space is trimmed, so the
    label is cut at 77 bytes. *)
Lemma formatNodes_cap_before_trim :
  let p1 := toNaturalLanguage samplePrinter sampleFset assignFuncLit in
  let p2 := toNaturalLanguage samplePrinter sampleFset assignFuncLitLong in
  p1 = "Set x to func() {}"
  ∧ (len (normalize p1) ≤ 80)%nat
  ∧ formatNodes samplePrinter sampleFset [assignFuncLit] ≠ normalize p1
  ∧ len (TrimSpace (normalize p2)) = 80%nat
  ∧ formatNodes samplePrinter sampleFset [assignFuncLitLong]
    ≠ TrimSpace (normalize p2).
Proof.
  repeat split.
  - vm_compute. lia.
  - intros H. vm_compute in H. discriminate H.
  - intros H. vm_compute in H. discriminate H.
Qed.

(** ** resolveDestination *)

Lemma indexed_lookup g p b :
  indexed g → g !! p = Some b → Index b = Z.of_nat p.
Proof.
  unfold indexed. intros Hi Hb.
  assert ((Index <$> g) !! p = Some (Index b)) as H1
    by (by rewrite list_lookup_fmap, Hb).
  rewrite Hi, list_lookup_fmap in H1.
  apply lookup_lt_Some in Hb.
  rewrite lookup_seq_lt in H1 by done. by injection H1.
Qed.

Lemma closed_lookup g p b s :
  closed g → g !! p = Some b → s ∈ Succs b → (s < length g)%nat.
Proof.
  unfold closed. rewrite Forall_lookup. intros Hc Hb Hs.
  specialize (Hc _ _ Hb). rewrite Forall_forall in Hc. by apply Hc.
Qed.

Lemma deref_Ok g p b : deref g p = Ok b ↔ g !! p = Some b.
Proof. unfold deref. destruct (g !! p); split; congruence. Qed.

Lemma deref_lt g p : (p < length g)%nat → ∃ b, deref g p = Ok b ∧ g !! p = Some b.
Proof.
  intros H. apply lookup_lt_is_Some in H as [b Hb]. exists b.
  by rewrite deref_Ok.
Qed.

Lemma marked_insert v k k' :
  marked (<[k := true]> v) k' = if decide (k = k') then true else marked v k'.
Proof. unfold marked. rewrite lookup_insert. by case_decide. Qed.

Lemma marked_empty k : marked ∅ k = false.
Proof. unfold marked. by rewrite lookup_empty. Qed.

Lemma marked_markAll v path p :
  marked (markAll v path) (Z.of_nat p) = true ↔
  p ∈ path ∨ marked v (Z.of_nat p) = true.
Proof.
  unfold markAll. revert v. induction path as [|q path IH]; intros v; simpl.
  - rewrite elem_of_nil. tauto.
  - rewrite IH, marked_insert, elem_of_cons. case_decide as Heq.
    + assert (p = q) by lia. tauto.
    + assert (p ≠ q) by lia. tauto.
Qed.

(** The loop, unfolded by one round. *)
Lemma resolveLoop_round g fuel visited curr b :
  g !! curr = Some b →
  resolveLoop g (S fuel) visited curr =
  if isEmptyPassThrough b then
    if marked visited (Index b) then Ok curr
    else match Succs b with
         | s :: _ => resolveLoop g fuel (<[Index b := true]> visited) s
         | [] => Panic
         end
  else Ok curr.
Proof. intros Hb. simpl. unfold deref. by rewrite Hb. Qed.

(** More rounds do not change a result that was reached. *)
Lemma resolveLoop_more_fuel g f f' visited curr r :
  resolveLoop g f visited curr = r → r ≠ OutOfFuel → (f ≤ f')%nat →
  resolveLoop g f' visited curr = r.
Proof.
  revert f' visited curr. induction f as [|f IH]; intros f' v c Hr Hne Hle.
  - simpl in Hr. congruence.
  - destruct f' as [|f']; [lia|].
    destruct (g !! c) as [b|] eqn:Hb.
    + rewrite (resolveLoop_round _ f _ _ _ Hb) in Hr.
      rewrite (resolveLoop_round _ f' _ _ _ Hb).
      destruct (isEmptyPassThrough b); [|done].
      destruct (marked v (Index b)); [done|].
      destruct (Succs b) as [|s ?]; [done|]. apply IH; [done..|lia].
    + simpl in *. unfold deref in *. by rewrite Hb in *.
Qed.

(** Termination. [keys] lists the indices marked so far: they are distinct
    indices of blocks of the graph, so there are at most [length g] of them,
    and every round that goes on marks a new one. *)
Lemma resolveLoop_stops g fuel visited curr keys :
  NoDup keys →
  (∀ k, marked visited k = true ↔ k ∈ keys) →
  keys ⊆ Index <$> g →
  (length g < length keys + fuel)%nat →
  resolveLoop g fuel visited curr ≠ OutOfFuel.
Proof.
  revert visited curr keys.
  induction fuel as [|fuel IH]; intros v c keys Hnd Hk Hsub Hlen.
  - assert (length keys ≤ length (Index <$> g))%nat as H.
    { apply submseteq_length, NoDup_submseteq; [done|]. intros x. apply Hsub. }
    rewrite length_fmap in H. lia.
  - destruct (g !! c) as [b|] eqn:Hb.
    + rewrite (resolveLoop_round _ _ _ _ _ Hb).
      destruct (isEmptyPassThrough b); [|done].
      destruct (marked v (Index b)) eqn:Hm; [done|].
      destruct (Succs b) as [|s ?]; [done|].
      apply (IH _ _ (Index b :: keys)).
      * constructor; [|done]. rewrite <- Hk. congruence.
      * intros k. rewrite marked_insert, elem_of_cons, <- Hk.
        case_decide as Heq; [|split; [by right|]; intros [?|?]; congruence].
        split; [by left|done].
      * intros k [->|Hin]%elem_of_cons; [|by apply Hsub].
        apply list_elem_of_fmap. exists b. split; [done|].
        by eapply list_elem_of_lookup_2.
      * simpl. lia.
    + simpl. unfold deref. by rewrite Hb.
Qed.

Lemma resolveDestination_stops g b : resolveDestination g b ≠ OutOfFuel.
Proof.
  unfold resolveDestination. apply (resolveLoop_stops _ _ _ _ []).
  - constructor.
  - intros k. rewrite marked_empty, elem_of_nil. split; [done|tauto].
  - intros k Hk. by apply elem_of_nil in Hk.
  - simpl. lia.
Qed.

(** In a closed graph the loop never dereferences a block that is not
    there. *)
Lemma resolveLoop_no_panic g fuel visited curr :
  closed g → (curr < length g)%nat →
  resolveLoop g fuel visited curr ≠ Panic.
Proof.
  intros Hc. revert visited curr.
  induction fuel as [|fuel IH]; intros v c Hlt; [done|].
  destruct (deref_lt _ _ Hlt) as (b & _ & Hb).
  rewrite (resolveLoop_round _ _ _ _ _ Hb).
  destruct (isEmptyPassThrough b) eqn:Hp; [|done].
  destruct (marked v (Index b)); [done|].
  destruct (Succs b) as [|s rest] eqn:Hs.
  - unfold isEmptyPassThrough in Hp. rewrite Hs in Hp. simpl in Hp.
    by rewrite andb_false_r in Hp.
  - apply IH. eapply closed_lookup; [done..|]. rewrite Hs. by left.
Qed.

Lemma resolveLoop_valid g fuel visited curr d :
  resolveLoop g fuel visited curr = Ok d → is_Some (g !! d).
Proof.
  revert visited curr. induction fuel as [|fuel IH]; intros v c; [done|].
  destruct (g !! c) as [b|] eqn:Hb.
  - rewrite (resolveLoop_round _ _ _ _ _ Hb).
    destruct (isEmptyPassThrough b).
    + destruct (marked v (Index b)); [intros [= <-]; eauto|].
      destruct (Succs b) as [|s ?]; [done|]. apply IH.
    + intros [= <-]; eauto.
  - simpl. unfold deref. by rewrite Hb.
Qed.

(** What a finished run has done: it walked a chain of distinct unmarked
    pass-through blocks and stopped at a block that is not a pass-through,
    or was marked, or lies on the chain it walked. *)
Lemma resolveLoop_chain g fuel visited curr d :
  indexed g →
  resolveLoop g fuel visited curr = Ok d →
  ∃ path,
    chain g curr path d ∧ NoDup path
    ∧ (∀ p, p ∈ path → marked visited (Z.of_nat p) = false)
    ∧ (passThroughAt g d = false
       ∨ marked visited (Z.of_nat d) = true ∨ d ∈ path).
Proof.
  intros Hi. revert visited curr.
  induction fuel as [|fuel IH]; intros v c; [done|].
  destruct (g !! c) as [b|] eqn:Hb.
  - rewrite (resolveLoop_round _ _ _ _ _ Hb).
    rewrite (indexed_lookup _ _ _ Hi Hb).
    destruct (isEmptyPassThrough b) eqn:Hp.
    + destruct (marked v (Z.of_nat c)) eqn:Hm.
      * intros [= <-]. exists []. split; [constructor|].
        split; [constructor|]. split; [by intros ? ?%elem_of_nil|]. auto.
      * destruct (Succs b) as [|s rest] eqn:Hs; [done|].
        intros (path & Hch & Hnd & Hun & Hd)%IH.
        assert (c ∉ path) as Hc.
        { intros Hin. specialize (Hun _ Hin).
          rewrite marked_insert in Hun. by case_decide. }
        exists (c :: path). split; [|split; [|split]].
        -- econstructor; [done..| |done]. by rewrite Hs.
        -- by constructor.
        -- intros p [->|Hin]%elem_of_cons; [done|].
           specialize (Hun _ Hin). rewrite marked_insert in Hun.
           by case_decide.
        -- destruct Hd as [Hd|[Hd|Hd]]; [by left|..].
           ++ rewrite marked_insert in Hd. case_decide as Heq.
              ** right; right. assert (d = c) as -> by lia. by left.
              ** by right; left.
           ++ right; right. by right.
    + intros [= <-]. exists []. split; [constructor|].
      split; [constructor|]. split; [by intros ? ?%elem_of_nil|].
      left. unfold passThroughAt. by rewrite Hb.
  - simpl. unfold deref. by rewrite Hb.
Qed.

(** Replaying a chain of distinct unmarked blocks. *)
Lemma resolveLoop_replay g visited c path d fuel :
  indexed g →
  chain g c path d → NoDup path →
  (∀ p, p ∈ path → marked visited (Z.of_nat p) = false) →
  resolveLoop g (length path + fuel) visited c =
  resolveLoop g fuel (markAll visited path) d.
Proof.
  intros Hi Hch. revert visited.
  induction Hch as [c|c b s path d Hb Hp Hs Hch IH]; intros v Hnd Hun.
  - done.
  - apply NoDup_cons in Hnd as [Hc Hnd].
    cbn [length Nat.add]. rewrite (resolveLoop_round _ _ _ _ _ Hb), Hp.
    rewrite (indexed_lookup _ _ _ Hi Hb).
    rewrite Hun by (by left).
    destruct (Succs b) as [|s' rest]; [done|]. injection Hs as ->.
    cbn [markAll foldl]. apply IH; [done|].
    intros p Hin. rewrite marked_insert. case_decide as Heq.
    + assert (p = c) as -> by lia. done.
    + apply Hun. by right.
Qed.

Lemma chain_app_inv g c p1 m p2 d :
  chain g c (p1 ++ m :: p2) d → chain g m (m :: p2) d.
Proof.
  revert c. induction p1 as [|q p1 IH]; intros c Hch; simpl in Hch.
  - inversion Hch; subst. econstructor; eauto.
  - inversion Hch; subst. eauto.
Qed.

Lemma chain_head_passThrough g c path d :
  chain g c (c :: path) d → passThroughAt g c = true.
Proof. inversion 1; subst. unfold passThroughAt. by simplify_option_eq. Qed.

(** A block the loop stops at resolves to itself. *)
Lemma resolveDestination_fixed g b d :
  indexed g →
  resolveDestination g b = Ok d → resolveDestination g d = Ok d.
Proof.
  intros Hi Hr. unfold resolveDestination in *.
  destruct (resolveLoop_valid _ _ _ _ _ Hr) as [bd Hbd].
  apply resolveLoop_chain in Hr as (path & Hch & Hnd & _ & Hd); [|done].
  destruct Hd as [Hd|[Hd|Hd]].
  - rewrite (resolveLoop_round _ _ _ _ _ Hbd).
    unfold passThroughAt in Hd. rewrite Hbd in Hd. by rewrite Hd.
  - by rewrite marked_empty in Hd.
  - apply list_elem_of_split in Hd as (p1 & p2 & ->).
    apply chain_app_inv in Hch.
    apply NoDup_app in Hnd as (_ & _ & Hnd).
    assert (resolveLoop g (length (d :: p2) + 1) ∅ d = Ok d) as Hrun.
    { rewrite (resolveLoop_replay _ _ _ _ _ _ Hi Hch Hnd)
        by (intros; apply marked_empty).
      rewrite (resolveLoop_round _ _ _ _ _ Hbd).
      apply chain_head_passThrough in Hch. unfold passThroughAt in Hch.
      rewrite Hbd in Hch. rewrite Hch.
      rewrite (indexed_lookup _ _ _ Hi Hbd).
      assert (marked (markAll ∅ (d :: p2)) (Z.of_nat d) = true) as ->; [|done].
      apply marked_markAll. left. by left. }
    destruct (decide (length (d :: p2) + 1 ≤ S (length g))%nat) as [Hle|Hgt].
    + by eapply resolveLoop_more_fuel.
    + destruct (resolveLoop g (S (length g)) ∅ d) as [d'| |] eqn:E.
      * apply (resolveLoop_more_fuel _ _ (length (d :: p2) + 1)) in E;
          [congruence|done|lia].
      * apply (resolveLoop_more_fuel _ _ (length (d :: p2) + 1)) in E;
          [congruence|done|lia].
      * by apply resolveDestination_stops in E.
Qed.

(** A block the loop stops at is no pass-through, unless it lies on a cycle
    of pass-through blocks. *)
Lemma resolveDestination_target g b d :
  indexed g →
  resolveDestination g b = Ok d →
  passThroughAt g d = false ∨ onPassThroughCycle g d.
Proof.
  intros Hi Hr. unfold resolveDestination in *.
  apply resolveLoop_chain in Hr as (path & Hch & Hnd & _ & Hd); [|done].
  destruct Hd as [Hd|[Hd|Hd]]; [by left|by rewrite marked_empty in Hd|].
  right. apply list_elem_of_split in Hd as (p1 & p2 & ->).
  exists p2. by eapply chain_app_inv.
Qed.

Lemma resolveDestination_Ok g b :
  closed g → (b < length g)%nat →
  ∃ d, resolveDestination g b = Ok d ∧ (d < length g)%nat.
Proof.
  intros Hc Hb. destruct (resolveDestination g b) as [d| |] eqn:E.
  - exists d. split; [done|].
    apply resolveLoop_valid in E. by apply lookup_lt_is_Some.
  - by apply resolveLoop_no_panic in E.
  - by apply resolveDestination_stops in E.
Qed.

(** C3. In a graph as [cfg.New] builds it, [resolveDestination] terminates
    on every block, also when the block leads into a cycle of pass-through
    blocks: the loop stops within one round more than there are blocks and
    any larger number of rounds gives the same block. It is idempotent: the
    block it returns resolves to itself. *)
Theorem resolveDestination_terminates_idempotent (g : list Block) (b : nat) :
  closed g → indexed g → (b < length g)%nat →
  ∃ d,
    resolveDestination g b = Ok d
    ∧ (∀ fuel, (S (length g) ≤ fuel)%nat → resolveLoop g fuel ∅ b = Ok d)
    ∧ resolveDestination g d = Ok d.
Proof.
  intros Hc Hi Hb. destruct (resolveDestination_Ok g b Hc Hb) as (d & Hd & _).
  exists d. split; [done|]. split.
  - intros fuel Hf. by eapply resolveLoop_more_fuel.
  - by eapply resolveDestination_fixed.
Qed.

Lemma foreverGraph_closed : closed foreverGraph.
Proof. repeat constructor. Qed.

Lemma foreverGraph_indexed : indexed foreverGraph.
Proof. reflexivity. Qed.

Lemma sampleGraph_closed : closed sampleGraph.
Proof. unfold closed, sampleGraph. repeat constructor; simpl; lia. Qed.

Lemma sampleGraph_indexed : indexed sampleGraph.
Proof. reflexivity. Qed.

Lemma resolveDestination_forever_witness :
  ∃ d,
    resolveDestination foreverGraph 0 = Ok d
    ∧ (∀ fuel, (S (length foreverGraph) ≤ fuel)%nat →
       resolveLoop foreverGraph fuel ∅ 0%nat = Ok d)
    ∧ resolveDestination foreverGraph d = Ok d.
Proof.
  apply (resolveDestination_terminates_idempotent foreverGraph 0).
  - apply foreverGraph_closed.
  - apply foreverGraph_indexed.
  - simpl. lia.
Defined.

(** ** The renderer *)

Lemma bind_Ok {A B} (m : result A) (f : A → result B) (b : B) :
  m ≫= f = Ok b ↔ ∃ a, m = Ok a ∧ f a = Ok b.
Proof.
  destruct m as [a| |]; simpl; split.
  - intros H. by exists a.
  - by intros (a' & [= <-] & H).
  - done.
  - by intros (a' & [=] & _).
  - done.
  - by intros (a' & [=] & _).
Qed.

Lemma bind_Ok_l {A B} (a : A) (f : A → result B) : Ok a ≫= f = f a.
Proof. reflexivity. Qed.

Lemma closed_filterBlock g : closed g → closed (filterBlock <$> g).
Proof.
  unfold closed. rewrite Forall_fmap, length_fmap.
  intros H. eapply Forall_impl; [done|]. by intros b.
Qed.

Lemma indexed_filterBlock g : indexed g → indexed (filterBlock <$> g).
Proof.
  unfold indexed. rewrite length_fmap, <- list_fmap_compose. intros <-.
  by apply list_fmap_ext.
Qed.

Lemma indexed_inj g p q b :
  indexed g → g !! p = Some b → g !! q = Some b → p = q.
Proof.
  intros Hi Hp Hq. apply (indexed_lookup _ _ _ Hi) in Hp, Hq. lia.
Qed.

Lemma indexed_same_Index g b b' :
  indexed g → b ∈ g → b' ∈ g → Index b = Index b' → b = b'.
Proof.
  intros Hi (p & Hp)%list_elem_of_lookup (q & Hq)%list_elem_of_lookup Heq.
  pose proof (indexed_lookup _ _ _ Hi Hp).
  pose proof (indexed_lookup _ _ _ Hi Hq).
  assert (p = q) as -> by lia. congruence.
Qed.

Lemma split_last {A} (l : list A) :
  (0 < length l)%nat →
  ∃ front x, l = front ++ [x]
    ∧ take (length l - 1) l = front ∧ drop (length l - 1) l = [x].
Proof.
  intros Hl. destruct (last l) as [x|] eqn:E.
  - apply last_Some in E as [front ->]. exists front, x.
    rewrite length_app. simpl.
    replace (length front + 1 - 1)%nat with (length front) by lia.
    by rewrite take_app_length, drop_app_length.
  - apply last_None in E as ->. simpl in Hl. lia.
Qed.

Lemma constant_sorted (c : Z) (l : list Z) :
  Forall (λ i, i = c) l → StronglySorted Z.le l.
Proof.
  induction 1 as [|i l -> Hl IH]; constructor; [done|].
  eapply Forall_impl; [done|]. intros j ->. lia.
Qed.


Lemma splits_bool b :
  Nat.ltb 1 (length (Nodes b)) && Nat.eqb (length (Succs b)) 2 = true
  ↔ splits b.
Proof.
  unfold splits. by rewrite andb_true_iff, Nat.ltb_lt, Nat.eqb_eq.
Qed.


Section Renderer.

Context (pr : token.FileSet → Node → string).

Lemma blockDecls_spec fset block :
  (splits block
   ∧ ∃ setup cond,
       Nodes block = setup ++ [cond]
       ∧ blockDecls pr fset block =
         [SetupDecl (Index block) (formatNodes pr fset setup);
          CondDecl (Index block) (formatNodes pr fset [cond]);
          SetupEdge (Index block)])
  ∨ (¬ splits block
     ∧ ∃ shapeStart shapeEnd classStr,
         blockDecls pr fset block =
         [BlockDecl (Index block) shapeStart
            (if Nat.eqb (length (Nodes block)) 0
             then getStructuralLabel block
             else formatNodes pr fset (Nodes block))
            shapeEnd classStr]).
Proof.
  unfold blockDecls.
  destruct (Nat.ltb 1 (length (Nodes block))
            && Nat.eqb (length (Succs block)) 2) eqn:E.
  - left. apply splits_bool in E as Hs. split; [done|].
    destruct Hs as [Hn _].
    destruct (split_last (Nodes block)) as (front & x & Heq & Ht & Hd);
      [lia|].
    exists front, x. by rewrite Ht, Hd.
  - right. split; [intros H%splits_bool; congruence|]. eauto.
Qed.


Lemma blockDecls_indices fset block :
  Forall (λ i, i = Index block) (declaredIndices (blockDecls pr fset block)).
Proof.
  destruct (blockDecls_spec fset block)
    as [(_ & setup & cond & _ & ->)|(_ & ? & ? & ? & ->)];
    simpl; repeat constructor.
Qed.

Lemma blockDecls_no_target fset block l :
  l ∈ blockDecls pr fset block → edgeTarget l = None.
Proof.
  destruct (blockDecls_spec fset block)
    as [(_ & setup & cond & _ & ->)|(_ & ? & ? & ? & ->)];
    rewrite ?elem_of_cons, elem_of_nil; intros H;
    repeat (destruct H as [->|H]; [done|]); done.
Qed.

Lemma blockEdges_spec g block es :
  blockEdges g block = Ok es →
  match Succs block with
  | [s] => ∃ dest, resolvesTo g s dest ∧ es = [spec_edge block Only dest]
  | [s0; s1] =>
      ∃ destTrue destFalse,
        resolvesTo g s0 destTrue ∧ resolvesTo g s1 destFalse
        ∧ es = [spec_edge block OnTrue destTrue;
                spec_edge block OnFalse destFalse]
  | _ => es = []
  end.
Proof.
  unfold blockEdges, resolvesTo, spec_edge, spec_isLoop.
  destruct (Succs block) as [|s0 [|s1 [|s2 rest]]].
  - by intros [= <-].
  - intros (p & Hp & (dest & Hd%deref_Ok & [= <-])%bind_Ok)%bind_Ok.
    exists dest. split; [eauto|]. by destruct (Z.leb _ _).
  - intros (pT & HpT & (dT & HdT%deref_Ok &
             (pF & HpF & (dF & HdF%deref_Ok & [= <-])%bind_Ok)%bind_Ok
           )%bind_Ok)%bind_Ok.
    exists dT, dF. split; [eauto|]. split; [eauto|].
    by destruct (Z.leb (Index dT) _), (Z.leb (Index dF) _).
  - by intros [= <-].
Qed.

Lemma blockEdges_edges g block es :
  blockEdges g block = Ok es → Forall (λ l, isEdge l = true) es.
Proof.
  intros H%blockEdges_spec.
  destruct (Succs block) as [|s0 [|s1 [|s2 rest]]]; subst.
  - constructor.
  - destruct H as (d & _ & ->). by repeat constructor.
  - destruct H as (d & d' & _ & _ & ->). by repeat constructor.
  - constructor.
Qed.

Lemma edges_no_index es :
  Forall (λ l, isEdge l = true) es → declaredIndices es = [].
Proof.
  induction 1 as [|l es Hl _ IH]; [done|]. simpl.
  by destruct l; simplify_eq/=.
Qed.

Lemma declaredIndices_app ls ls' :
  declaredIndices (ls ++ ls') = declaredIndices ls ++ declaredIndices ls'.
Proof.
  induction ls as [|l ls IH]; [done|]. simpl.
  destruct (declaredIndex l); simpl; by rewrite IH.
Qed.

Lemma declaredIndices_elem ls l i :
  l ∈ ls → declaredIndex l = Some i → i ∈ declaredIndices ls.
Proof.
  induction ls as [|l' ls IH]; [by intros ?%elem_of_nil|].
  intros [->|Hin]%elem_of_cons Hi; simpl.
  - rewrite Hi. by left.
  - destruct (declaredIndex l'); [right|]; by apply IH.
Qed.

Lemma blockEdges_Ok g block :
  closed g → block ∈ g → ∃ es, blockEdges g block = Ok es.
Proof.
  intros Hc (q & Hq)%list_elem_of_lookup.
  assert (∀ s, s ∈ Succs block →
               ∃ p dest, resolveDestination g s = Ok p
                         ∧ deref g p = Ok dest) as Hres.
  { intros s Hs.
    destruct (resolveDestination_Ok g s Hc) as (p & Hp & Hlt);
      [by eapply closed_lookup|].
    destruct (deref_lt _ _ Hlt) as (dest & Hd & _). eauto. }
  unfold blockEdges.
  destruct (Succs block) as [|s0 [|s1 [|s2 rest]]]; [by eexists| | |by eexists].
  - destruct (Hres s0) as (p & dest & -> & Hd); [by left|]. simpl.
    rewrite Hd. simpl. by eexists.
  - destruct (Hres s0) as (p & dest & -> & Hd); [by left|]. simpl.
    rewrite Hd. simpl.
    destruct (Hres s1) as (p' & dest' & -> & Hd'); [right; by left|]. simpl.
    rewrite Hd'. simpl. by eexists.
Qed.

(** One round of the loop over the blocks. *)
Lemma renderBlock_inv fset g block part :
  renderBlock pr fset g block = Ok part →
  (isEmptyPassThrough block = true ∧ part = [])
  ∨ (isEmptyPassThrough block = false
     ∧ ∃ es, blockEdges g block = Ok es
             ∧ part = blockDecls pr fset block ++ es).
Proof.
  unfold renderBlock. destruct (isEmptyPassThrough block).
  - intros [= <-]. by left.
  - intros (es & Hes & [= <-])%bind_Ok. right. eauto.
Qed.

Lemma renderBlocks_inv fset g blocks ls :
  renderBlocks pr fset g blocks = Ok ls →
  ∃ parts,
    Forall2 (λ block part, renderBlock pr fset g block = Ok part) blocks parts
    ∧ ls = concat parts.
Proof.
  revert ls. induction blocks as [|block blocks IH]; intros ls; simpl.
  - intros [= <-]. exists []. by split; [constructor|].
  - intros (part & Hp & (more & Hm & [= <-])%bind_Ok)%bind_Ok.
    destruct (IH _ Hm) as (parts & Hf & ->).
    exists (part :: parts). by split; [constructor|].
Qed.

Lemma renderBlocks_Ok fset g blocks :
  closed g → blocks ⊆ g → ∃ ls, renderBlocks pr fset g blocks = Ok ls.
Proof.
  intros Hc. induction blocks as [|block blocks IH]; intros Hsub; simpl.
  - by eexists.
  - unfold renderBlock. destruct IH as (more & ->).
    { intros b Hb. apply Hsub. by right. }
    destruct (isEmptyPassThrough block); simpl; [by eexists|].
    destruct (blockEdges_Ok g block Hc) as (es & ->); [apply Hsub; by left|].
    simpl. by eexists.
Qed.

Lemma render_inv fset flowGraph startFunc ls :
  render pr fset flowGraph startFunc = Ok ls →
  ∃ firstBlock body,
    resolvesTo (filterBlock <$> flowGraph) 0 firstBlock
    ∧ renderBlocks pr fset (filterBlock <$> flowGraph)
        (filterBlock <$> flowGraph) = Ok body
    ∧ ls = [ClassDefs; RootDecl startFunc;
            RootEdge (getEntryPoint firstBlock)] ++ body.
Proof.
  unfold render. cbv zeta.
  intros (p & Hp & (b & Hb%deref_Ok &
            (body & Hbody & [= <-])%bind_Ok)%bind_Ok)%bind_Ok.
  exists b, body. split; [by exists p|done].
Qed.

Lemma render_Ok fset flowGraph startFunc :
  closed flowGraph → flowGraph ≠ [] →
  ∃ ls, render pr fset flowGraph startFunc = Ok ls.
Proof.
  intros Hc%closed_filterBlock Hne. unfold render. cbv zeta.
  destruct (resolveDestination_Ok (filterBlock <$> flowGraph) 0 Hc)
    as (p & -> & Hlt).
  { rewrite length_fmap. destruct flowGraph; [done|simpl; lia]. }
  rewrite bind_Ok_l.
  destruct (deref_lt _ _ Hlt) as (b & -> & _). rewrite bind_Ok_l.
  destruct (renderBlocks_Ok fset _ (filterBlock <$> flowGraph) Hc)
    as (body & ->); [done|].
  rewrite bind_Ok_l. by eexists.
Qed.

(** Every line of the body comes from the round of a block that is not a
    pass-through. *)
Lemma renderBlocks_elem fset g blocks ls l :
  renderBlocks pr fset g blocks = Ok ls → l ∈ ls →
  ∃ block es,
    block ∈ blocks ∧ isEmptyPassThrough block = false
    ∧ blockEdges g block = Ok es
    ∧ (l ∈ blockDecls pr fset block ∨ l ∈ es).
Proof.
  intros (parts & Hf & ->)%renderBlocks_inv.
  induction Hf as [|block part blocks parts Hp _ IH]; simpl.
  - by intros ?%elem_of_nil.
  - intros [Hin|Hin]%elem_of_app.
    + apply renderBlock_inv in Hp as [[_ ->]|(Hpt & es & Hes & ->)].
      * by apply elem_of_nil in Hin.
      * exists block, es. split; [by left|]. split; [done|]. split; [done|].
        by apply elem_of_app.
    + destruct (IH Hin) as (b & es & Hb & H). exists b, es.
      split; [by right|done].
Qed.


Lemma renderBlocks_sorted fset g blocks ls :
  renderBlocks pr fset g blocks = Ok ls →
  StronglySorted Z.le (Index <$> blocks) →
  StronglySorted Z.le (declaredIndices ls)
  ∧ Forall (λ i, i ∈ Index <$> blocks) (declaredIndices ls).
Proof.
  intros (parts & Hf & ->)%renderBlocks_inv.
  induction Hf as [|block part blocks parts Hp _ IH]; simpl; intros Hs.
  - split; constructor.
  - apply StronglySorted_cons in Hs as [Hle Hs].
    destruct (IH Hs) as [IHs IHin].
    assert (Forall (λ i, i = Index block) (declaredIndices part)) as Hpart.
    { apply renderBlock_inv in Hp as [[_ ->]|(_ & es & Hes & ->)];
        [constructor|].
      rewrite declaredIndices_app, (edges_no_index es), app_nil_r
        by (by eapply blockEdges_edges).
      apply blockDecls_indices. }
    rewrite declaredIndices_app. split.
    + apply StronglySorted_app. split; [|split; [|done]].
      * intros i j Hi Hj. rewrite Forall_forall in Hpart, IHin, Hle.
        rewrite (Hpart _ Hi). apply Hle. by apply IHin.
      * by eapply constant_sorted.
    + apply Forall_app. split.
      * eapply Forall_impl; [done|]. intros i ->. by left.
      * eapply Forall_impl; [done|]. intros i Hi. by right.
Qed.

Lemma indexed_sorted g : indexed g → StronglySorted Z.le (Index <$> g).
Proof.
  unfold indexed. intros ->. generalize 0%nat.
  induction (length g) as [|n IH]; intros k; simpl; constructor; [done|].
  apply Forall_fmap, Forall_forall. intros j Hj%elem_of_seq. simpl. lia.
Qed.

End Renderer.

(** ** The diagram *)

(** Where the lines of a diagram come from. *)
Lemma render_line pr fset flowGraph startFunc ls l :
  render pr fset flowGraph startFunc = Ok ls → l ∈ ls →
  l = ClassDefs ∨ l = RootDecl startFunc
  ∨ (∃ dest, resolvesTo (filterBlock <$> flowGraph) 0 dest
             ∧ l = RootEdge (getEntryPoint dest))
  ∨ (∃ block es,
       block ∈ filterBlock <$> flowGraph
       ∧ isEmptyPassThrough block = false
       ∧ blockEdges (filterBlock <$> flowGraph) block = Ok es
       ∧ (l ∈ blockDecls pr fset block ∨ l ∈ es)).
Proof.
  intros (first & body & Hfirst & Hbody & ->)%render_inv.
  rewrite !elem_of_app, !elem_of_cons, elem_of_nil.
  intros [[->|[->|[->|[]]]]|Hin]; [by left|by right; left|..].
  - right; right; left. eauto.
  - right; right; right. by eapply renderBlocks_elem.
Qed.

Lemma blockEdges_elem g block es l :
  blockEdges g block = Ok es → l ∈ es →
  ∃ br s dest,
    branchOf (Succs block) br s ∧ resolvesTo g s dest
    ∧ l = spec_edge block br dest.
Proof.
  intros H%blockEdges_spec.
  destruct (Succs block) as [|s0 [|s1 [|s2 rest]]]; subst.
  - by intros ?%elem_of_nil.
  - destruct H as (dest & Hr & ->).
    rewrite elem_of_cons, elem_of_nil. intros [->|[]].
    by exists Only, s0, dest.
  - destruct H as (dT & dF & HT & HF & ->).
    rewrite !elem_of_cons, elem_of_nil. intros [->|[->|[]]].
    + exists OnTrue, s0, dT. split; [by exists s1|done].
    + exists OnFalse, s1, dF. split; [by exists s0|done].
  - by intros ?%elem_of_nil.
Qed.

Lemma blockDecls_no_edge pr fset block l :
  l ∈ blockDecls pr fset block → isEdge l = false.
Proof.
  destruct (blockDecls_spec pr fset block)
    as [(_ & setup & cond & _ & ->)|(_ & ? & ? & ? & ->)];
    rewrite ?elem_of_cons, elem_of_nil; intros H;
    repeat (destruct H as [->|H]; [done|]); done.
Qed.

Lemma render_target pr fset flowGraph startFunc ls l t :
  render pr fset flowGraph startFunc = Ok ls →
  l ∈ ls → edgeTarget l = Some t →
  ∃ s p dest,
    resolveDestination (filterBlock <$> flowGraph) s = Ok p
    ∧ (filterBlock <$> flowGraph) !! p = Some dest
    ∧ t = getEntryPoint dest.
Proof.
  intros Hr Hin Ht.
  destruct (render_line _ _ _ _ _ _ Hr Hin)
    as [->|[->|[(dest & (p & Hp & Hd) & ->)|(block & es & _ & _ & Hes & H)]]];
    try done.
  - injection Ht as <-. by exists 0%nat, p, dest.
  - destruct H as [H|H].
    + apply blockDecls_no_target in H. congruence.
    + destruct (blockEdges_elem _ _ _ _ Hes H)
        as (br & s & dest & _ & (p & Hp & Hd) & ->).
      injection Ht as <-. by exists s, p, dest.
Qed.


(** C4. A block that is rendered is split into a setup node and a condition
    node if and only if, after the noise filter, it has more than one
    statement and exactly two successors. When it is split the last
    statement makes the label of the condition node and the statements
    before it make the label of the setup node, so the statements rendered
    are those of the block; when it is not split it is one node. *)
Theorem renderBlock_splits_setup_and_condition
    (pr : token.FileSet → Node → string) (fset : token.FileSet)
    (g : list Block) (block : Block) (part : list Line) :
  renderBlock pr fset g block = Ok part →
  isEmptyPassThrough block = false →
  ∃ es,
    blockEdges g block = Ok es
    ∧ Forall (λ l, isEdge l = true) es
    ∧ ((splits block
        ∧ ∃ setup cond,
            Nodes block = setup ++ [cond]
            ∧ setup ++ [cond] ≡ₚ Nodes block
            ∧ part = [SetupDecl (Index block) (formatNodes pr fset setup);
                      CondDecl (Index block) (formatNodes pr fset [cond]);
                      SetupEdge (Index block)] ++ es)
       ∨ (¬ splits block
          ∧ ∃ shapeStart shapeEnd classStr,
              part = BlockDecl (Index block) shapeStart
                       (if Nat.eqb (length (Nodes block)) 0
                        then getStructuralLabel block
                        else formatNodes pr fset (Nodes block))
                       shapeEnd classStr :: es)).
Proof.
  intros [[? _]|(_ & es & Hes & ->)]%renderBlock_inv Hpt; [congruence|].
  exists es. split; [done|]. split; [by eapply blockEdges_edges|].
  destruct (blockDecls_spec pr fset block)
    as [(Hs & setup & cond & Hn & ->)|(Hs & a & b & c & ->)].
  - left. split; [done|]. exists setup, cond. by rewrite <- Hn.
  - right. split; [done|]. by exists a, b, c.
Qed.

Lemma renderBlock_split_witness :
  ∃ es,
    blockEdges sampleFiltered sampleEntry = Ok es
    ∧ Forall (λ l, isEdge l = true) es
    ∧ ((splits sampleEntry
        ∧ ∃ setup cond,
            Nodes sampleEntry = setup ++ [cond]
            ∧ setup ++ [cond] ≡ₚ Nodes sampleEntry
            ∧ [SetupDecl 0 "Set x to y"; CondDecl 0 "x is greater than n";
               SetupEdge 0; Edge "B0" "-->|True|" "B1";
               Edge "B0" "-->|False|" "B3"]
              = [SetupDecl (Index sampleEntry)
                   (formatNodes samplePrinter sampleFset setup);
                 CondDecl (Index sampleEntry)
                   (formatNodes samplePrinter sampleFset [cond]);
                 SetupEdge (Index sampleEntry)] ++ es)
       ∨ (¬ splits sampleEntry
          ∧ ∃ shapeStart shapeEnd classStr,
              [SetupDecl 0 "Set x to y"; CondDecl 0 "x is greater than n";
               SetupEdge 0; Edge "B0" "-->|True|" "B1";
               Edge "B0" "-->|False|" "B3"]
              = BlockDecl (Index sampleEntry) shapeStart
                  (if Nat.eqb (length (Nodes sampleEntry)) 0
                   then getStructuralLabel sampleEntry
                   else formatNodes samplePrinter sampleFset
                          (Nodes sampleEntry))
                  shapeEnd classStr :: es)).
Proof.
  apply (renderBlock_splits_setup_and_condition samplePrinter sampleFset
           sampleFiltered sampleEntry).
  - vm_compute. reflexivity.
  - reflexivity.
Defined.

(** C5. Every edge that leaves a block is classified by two indices alone,
    that of the block and that of the block its successor resolves to: it
    is a loop edge (dashed, labelled Loop, Loop True or Loop False) exactly
    when the index of the target is at most the index of the source, a
    forward edge otherwise, and the True and the False branch follow the
    same rule. *)
Theorem edges_classified_by_index
    (pr : token.FileSet → Node → string) (fset : token.FileSet)
    (flowGraph : list Block) (startFunc : string) (ls : list Line)
    (exitPoint arrow target : string) :
  render pr fset flowGraph startFunc = Ok ls →
  Edge exitPoint arrow target ∈ ls →
  ∃ block br s dest,
    block ∈ filterBlock <$> flowGraph
    ∧ branchOf (Succs block) br s
    ∧ resolvesTo (filterBlock <$> flowGraph) s dest
    ∧ exitPoint = "B" +:+ pretty (Index block)
    ∧ target = getEntryPoint dest
    ∧ arrow = spec_arrow br (spec_isLoop (Index block) (Index dest))
    ∧ (spec_isLoop (Index block) (Index dest) = true
       ↔ Index dest ≤ Index block).
Proof.
  intros Hr Hin.
  destruct (render_line _ _ _ _ _ _ Hr Hin)
    as [?|[?|[(dest & _ & ?)|(block & es & Hb & _ & Hes & H)]]]; try done.
  destruct H as [H|H]; [by apply blockDecls_no_edge in H|].
  destruct (blockEdges_elem _ _ _ _ Hes H) as (br & s & dest & Hbr & Hd & He).
  injection He as -> -> ->. exists block, br, s, dest.
  repeat (split; [done|]). unfold spec_isLoop. apply Z.leb_le.
Qed.

Lemma sampleGraph_render :
  render samplePrinter sampleFset sampleGraph "f" = Ok sampleLines.
Proof. vm_compute. reflexivity. Qed.

Lemma foreverGraph_render :
  render samplePrinter sampleFset foreverGraph "f" = Ok foreverLines.
Proof. vm_compute. reflexivity. Qed.

Lemma edges_classified_witness :
  ∃ block br s dest,
    block ∈ filterBlock <$> sampleGraph
    ∧ branchOf (Succs block) br s
    ∧ resolvesTo (filterBlock <$> sampleGraph) s dest
    ∧ "B3" = "B" +:+ pretty (Index block)
    ∧ "B0_setup" = getEntryPoint dest
    ∧ "-.->|Loop|" = spec_arrow br (spec_isLoop (Index block) (Index dest))
    ∧ (spec_isLoop (Index block) (Index dest) = true
       ↔ Index dest ≤ Index block).
Proof.
  apply (edges_classified_by_index samplePrinter sampleFset sampleGraph "f"
           sampleLines "B3" "-.->|Loop|" "B0_setup").
  - vm_compute. reflexivity.
  - unfold sampleLines. apply list_elem_of_In. simpl. tauto.
Defined.



(** C8 (as the program has it). The diagram never declares a node for a
    pass-through block, and the target of every edge, the root edge
    included, is the entry point of the block that [resolveDestination]
    returns for a successor (or for the first block), never that of a raw
    successor. That block is not a pass-through, unless the successor leads
    into a cycle made of pass-through blocks only: then it is a block of
    that cycle. *)
Theorem render_elides_pass_through
    (pr : token.FileSet → Node → string) (fset : token.FileSet)
    (flowGraph : list Block) (startFunc : string) (ls : list Line) :
  indexed flowGraph →
  render pr fset flowGraph startFunc = Ok ls →
  (∀ b l,
     b ∈ filterBlock <$> flowGraph → isEmptyPassThrough b = true →
     l ∈ ls → declaredIndex l ≠ Some (Index b))
  ∧ (∀ l t,
       l ∈ ls → edgeTarget l = Some t →
       ∃ s p dest,
         resolveDestination (filterBlock <$> flowGraph) s = Ok p
         ∧ (filterBlock <$> flowGraph) !! p = Some dest
         ∧ t = getEntryPoint dest
         ∧ (isEmptyPassThrough dest = false
            ∨ onPassThroughCycle (filterBlock <$> flowGraph) p)).
Proof.
  intros Hi%indexed_filterBlock Hr. split.
  - intros b l Hb Hpt Hin Hidx.
    destruct (render_line _ _ _ _ _ _ Hr Hin)
      as [->|[->|[(dest & _ & ->)|(block & es & Hblock & Hnpt & Hes & H)]]];
      try done.
    destruct H as [H|H].
    + pose proof (blockDecls_indices pr fset block) as Hall.
      rewrite Forall_forall in Hall.
      specialize (Hall _ (declaredIndices_elem _ _ _ H Hidx)).
      assert (b = block) by (by eapply indexed_same_Index). congruence.
    + apply blockEdges_edges in Hes. rewrite Forall_forall in Hes.
      specialize (Hes _ H). by destruct l.
  - intros l t Hin Ht.
    destruct (render_target _ _ _ _ _ _ _ Hr Hin Ht)
      as (s & p & dest & Hp & Hd & ->).
    exists s, p, dest. repeat (split; [done|]).
    destruct (resolveDestination_target _ _ _ Hi Hp) as [H|H]; [|by right].
    left. unfold passThroughAt in H. by rewrite Hd in H.
Qed.

Lemma render_elides_witness :
  (∀ b l,
     b ∈ filterBlock <$> sampleGraph → isEmptyPassThrough b = true →
     l ∈ sampleLines → declaredIndex l ≠ Some (Index b))
  ∧ (∀ l t,
       l ∈ sampleLines → edgeTarget l = Some t →
       ∃ s p dest,
         resolveDestination (filterBlock <$> sampleGraph) s = Ok p
         ∧ (filterBlock <$> sampleGraph) !! p = Some dest
         ∧ t = getEntryPoint dest
         ∧ (isEmptyPassThrough dest = false
            ∨ onPassThroughCycle (filterBlock <$> sampleGraph) p)).
Proof.
  apply (render_elides_pass_through samplePrinter sampleFset sampleGraph "f").
  - reflexivity.
  - vm_compute. reflexivity.
Defined.

(** C8, as stated, fails on [func f() { for {} }]: the entry block and the
    loop body are pass-through blocks, the body is its own successor, and
    the root edge of the diagram points to the body, [B1], a pass-through
    block for which no node is declared. *)
Lemma render_forever_edge_into_pass_through :
  render samplePrinter sampleFset foreverGraph "f" = Ok foreverLines
  ∧ RootEdge "B1" ∈ foreverLines
  ∧ (∃ b, foreverGraph !! 1%nat = Some b
          ∧ isEmptyPassThrough b = true ∧ getEntryPoint b = "B1")
  ∧ (∀ l, l ∈ foreverLines → declaredId l ≠ Some "B1").
Proof.
  split; [vm_compute; reflexivity|]. split; [|split].
  - unfold foreverLines. apply list_elem_of_In. simpl. tauto.
  - eexists. split; [reflexivity|]. split; reflexivity.
  - intros l Hl%list_elem_of_In. simpl in Hl.
    destruct Hl as [<-|[<-|[<-|[<-|[]]]]]; vm_compute; congruence.
Qed.

(** C10. The rendering pass is a function of the filtered graph, the file
    set and the name: the text is the fixed prologue, the root node and its
    edge, then the lines of each block in the order of the slice; graphs
    that agree after the noise filter give the same lines; and the nodes
    are declared in ascending order of block index. *)
Theorem render_deterministic_in_block_order
    (pr : token.FileSet → Node → string) (fset : token.FileSet)
    (flowGraph : list Block) (startFunc : string) (ls : list Line) :
  indexed flowGraph →
  render pr fset flowGraph startFunc = Ok ls →
  (∃ firstBlock parts,
     Forall2 (λ block part,
                renderBlock pr fset (filterBlock <$> flowGraph) block
                = Ok part)
             (filterBlock <$> flowGraph) parts
     ∧ ls = [ClassDefs; RootDecl startFunc;
             RootEdge (getEntryPoint firstBlock)] ++ concat parts)
  ∧ (∀ flowGraph' ls',
       filterBlock <$> flowGraph' = filterBlock <$> flowGraph →
       render pr fset flowGraph' startFunc = Ok ls' →
       writeAll ls' = writeAll ls)
  ∧ StronglySorted Z.le (declaredIndices ls).
Proof.
  intros Hi%indexed_filterBlock Hr. split; [|split].
  - apply render_inv in Hr as (first & body & _ & Hbody & ->).
    apply renderBlocks_inv in Hbody as (parts & Hf & ->). eauto.
  - intros g' ls' Heq Hr'. unfold render in *. cbv zeta in *.
    rewrite Heq in Hr'. congruence.
  - apply render_inv in Hr as (first & body & _ & Hbody & ->).
    apply renderBlocks_sorted in Hbody as [Hs _]; [done|].
    by apply indexed_sorted.
Qed.

Lemma render_deterministic_witness :
  (∃ firstBlock parts,
     Forall2 (λ block part,
                renderBlock samplePrinter sampleFset
                  (filterBlock <$> sampleGraph) block = Ok part)
             (filterBlock <$> sampleGraph) parts
     ∧ sampleLines = [ClassDefs; RootDecl "f";
                      RootEdge (getEntryPoint firstBlock)] ++ concat parts)
  ∧ (∀ flowGraph' ls',
       filterBlock <$> flowGraph' = filterBlock <$> sampleGraph →
       render samplePrinter sampleFset flowGraph' "f" = Ok ls' →
       writeAll ls' = writeAll sampleLines)
  ∧ StronglySorted Z.le (declaredIndices sampleLines).
Proof.
  apply (render_deterministic_in_block_order samplePrinter sampleFset
           sampleGraph "f").
  - reflexivity.
  - vm_compute. reflexivity.
Defined.

(** ** The search for the function *)

Lemma foldl_orElse {A B} (step : option B → A → option B)
    (items : A → list B) (l : list A) (t : option B) :
  (∀ t a, step t a = orElse (last (items a)) t) →
  foldl step t l = orElse (last (l ≫= items)) t.
Proof.
  intros Hstep. revert t. induction l as [|a l IH]; intros t; [done|].
  cbn [foldl]. rewrite IH, Hstep.
  change ((a :: l) ≫= items) with (items a ++ (l ≫= items)).
  rewrite last_app. by destruct (last (l ≫= items)).
Qed.

Lemma visitDecl_orElse startFunc pkg t d :
  visitDecl startFunc pkg t d = orElse (last (matchesOf startFunc pkg d)) t.
Proof.
  destruct d as [fn|]; simpl; [|done].
  by destruct (String.eqb (Name fn) startFunc).
Qed.

Lemma findTarget_last startFunc ps :
  findTarget startFunc ps = last (matching startFunc ps).
Proof.
  unfold findTarget, matching.
  rewrite (foldl_orElse _
             (λ pkg, file ← Syntax pkg; d ← Decls file;
                     matchesOf startFunc pkg d)).
  - by destruct (last _).
  - intros t pkg. unfold visitPackage.
    apply (foldl_orElse _ (λ file, d ← Decls file; matchesOf startFunc pkg d)).
    intros t' file. unfold visitFile.
    apply (foldl_orElse _ (matchesOf startFunc pkg)).
    apply visitDecl_orElse.
Qed.

Lemma PrintErrors_none l : loadErrors l = [] → PrintErrors l = (EmptyString, 0%nat).
Proof. unfold PrintErrors. by intros ->. Qed.

Lemma PrintErrors_some l : loadErrors l ≠ [] → Nat.ltb 0 (PrintErrors l).2 = true.
Proof. unfold PrintErrors. by destruct (loadErrors l). Qed.

Lemma analyzeCFG_load_err pr load new path startFunc :
  err (load path) = true →
  analyzeCFG pr load new path startFunc =
  {| written := EmptyString;
     outcome := Ok (EmptyString, Some "failed to load packages") |}.
Proof. unfold analyzeCFG. cbv zeta. by intros ->. Qed.

Lemma analyzeCFG_load_printed pr load new path startFunc :
  err (load path) = false → loadErrors (load path) ≠ [] →
  analyzeCFG pr load new path startFunc =
  {| written := (PrintErrors (load path)).1;
     outcome := Ok (EmptyString, Some "failed to load packages") |}.
Proof.
  unfold analyzeCFG. cbv zeta. intros -> H. by rewrite PrintErrors_some.
Qed.

Lemma analyzeCFG_loaded pr load new path startFunc :
  err (load path) = false → loadErrors (load path) = [] →
  analyzeCFG pr load new path startFunc =
  {| written := EmptyString;
     outcome :=
       match last (matching startFunc (pkgs (load path))) with
       | None =>
           Ok (EmptyString,
               Some ("function '" +:+ startFunc +:+ "' not found"))
       | Some (targetDecl, fset) =>
           match Body targetDecl with
           | None => Panic
           | Some body =>
               ls ← render pr fset (new body) startFunc;
               Ok (writeAll ls, None)
           end
       end |}.
Proof.
  intros He Hp. unfold analyzeCFG. cbv zeta.
  by rewrite He, (PrintErrors_none _ Hp), findTarget_last.
Qed.




(** * Further properties *)

(** ** Labels *)

Lemma bytes_mapBytes f s :
  bytes (mapBytes f s) = c ← bytes s; bytes (f c).
Proof.
  induction s as [|c s IH]; [done|]. simpl. by rewrite bytes_app, IH.
Qed.

Lemma safeLabel_app s t : safeLabel s → safeLabel t → safeLabel (s +:+ t).
Proof. unfold safeLabel. rewrite bytes_app. apply Forall_app_2. Qed.

Lemma normByte_safe c : safeLabel (normByte c).
Proof.
  destruct c as [[] [] [] [] [] [] [] []]; vm_compute; repeat constructor.
Qed.

Lemma normalize_safe s : safeLabel (normalize s).
Proof.
  rewrite normalize_bytewise. unfold safeLabel. rewrite bytes_mapBytes.
  induction (bytes s) as [|c l IH]; [constructor|].
  change ((c :: l) ≫= (λ c, bytes (normByte c)))
    with (bytes (normByte c) ++ (l ≫= (λ c, bytes (normByte c)))).
  apply Forall_app_2; [apply normByte_safe|done].
Qed.

Lemma stripLeading_Forall (P : ascii → Prop) pats fuel l :
  Forall P l → Forall P (stripLeading pats fuel l).
Proof.
  revert l. induction fuel as [|fuel IH]; intros l Hl; simpl; [done|].
  destruct (stripOne pats l) as [r|] eqn:E; [|done].
  apply stripOne_suffix in E as [k ->]. by apply IH, Forall_drop.
Qed.

Lemma trimLeft_Forall (P : ascii → Prop) l : Forall P l → Forall P (trimLeft l).
Proof. apply stripLeading_Forall. Qed.

Lemma trimRight_Forall (P : ascii → Prop) l :
  Forall P l → Forall P (trimRight l).
Proof.
  intros H. unfold trimRight. apply Forall_reverse, stripLeading_Forall.
  by apply Forall_reverse.
Qed.

Lemma trimRight_length l : (length (trimRight l) ≤ length l)%nat.
Proof.
  unfold trimRight. rewrite length_reverse.
  etrans; [apply stripLeading_length|]. by rewrite length_reverse.
Qed.

Lemma TrimSpace_safe s : safeLabel s → safeLabel (TrimSpace s).
Proof.
  unfold safeLabel, TrimSpace.
  rewrite String.list_ascii_of_string_of_list_ascii. intros H.
  by apply trimRight_Forall, trimLeft_Forall.
Qed.

Lemma TrimSpace_len s : (len (TrimSpace s) ≤ len s)%nat.
Proof.
  unfold TrimSpace. rewrite len_of_bytes, (len_bytes s).
  etrans; [apply trimRight_length|apply trimLeft_length].
Qed.

Lemma truncate_safe s : safeLabel s → safeLabel (truncate s).
Proof.
  intros H. unfold truncate. destruct (Nat.ltb 80 (len s)); [|done].
  apply safeLabel_app; [|by vm_compute; repeat constructor].
  unfold safeLabel. rewrite bytes_slice_to. by apply Forall_take.
Qed.

Lemma truncate_len s : (len (truncate s) ≤ 80)%nat.
Proof.
  unfold truncate. destruct (Nat.ltb 80 (len s)) eqn:E.
  - apply Nat.ltb_lt in E. rewrite len_app, len_slice_to by lia.
    change (len "...") with 3%nat. lia.
  - by apply Nat.ltb_ge in E.
Qed.

Lemma formatLine_safe s : safeLabel (formatLine s).
Proof. apply TrimSpace_safe, truncate_safe, normalize_safe. Qed.

Lemma formatLine_len s : (len (formatLine s) ≤ 80)%nat.
Proof. unfold formatLine. etrans; [apply TrimSpace_len|apply truncate_len]. Qed.

Lemma Join_cons x y rest sep :
  Join (x :: y :: rest) sep = x +:+ sep +:+ Join (y :: rest) sep.
Proof. reflexivity. Qed.

Lemma Join_safe elems sep :
  Forall safeLabel elems → safeLabel sep → safeLabel (Join elems sep).
Proof.
  intros H Hsep. induction H as [|x l Hx Hl IH]; [constructor|].
  destruct l as [|y l]; [done|]. rewrite Join_cons.
  by repeat apply safeLabel_app.
Qed.

Lemma Join_app l1 l2 sep :
  l1 ≠ [] → l2 ≠ [] →
  Join (l1 ++ l2) sep = Join l1 sep +:+ sep +:+ Join l2 sep.
Proof.
  intros H1 H2. induction l1 as [|x l1 IH]; [done|].
  destruct l1 as [|y l1].
  - destruct l2 as [|z l2]; [done|]. reflexivity.
  - change ((x :: y :: l1) ++ l2) with (x :: y :: (l1 ++ l2)).
    rewrite !Join_cons. change (y :: l1 ++ l2) with ((y :: l1) ++ l2).
    rewrite IH by done. by rewrite !app_assoc'.
Qed.

Lemma Join_len elems sep bound :
  Forall (λ s, (len s ≤ bound)%nat) elems →
  (len (Join elems sep) ≤ (bound + len sep) * length elems - len sep)%nat.
Proof.
  intros H. induction H as [|x l Hx Hl IH]; [simpl; lia|].
  destruct l as [|y l]; [simpl; lia|].
  rewrite Join_cons, !len_app. cbn [length] in *. lia.
Qed.

Lemma formatNodes_label_is_safe_aux
    (pr : token.FileSet → Node → string) (fset : token.FileSet)
    (nodes : list Node) :
  safeLabel (formatNodes pr fset nodes).
Proof.
  unfold formatNodes. apply Join_safe; [|by vm_compute; repeat constructor].
  apply Forall_fmap, Forall_forall. intros n _. apply formatLine_safe.
Qed.

(** X1. Whatever the printer prints, a label made by [formatNodes] holds no
    newline, tab, double quote or brace: it cannot end or break the quoted
    text of the node it is written into. *)
Theorem formatNodes_label_is_safe
    (pr : token.FileSet → Node → string) (fset : token.FileSet)
    (nodes : list Node) :
  safeLabel (formatNodes pr fset nodes).
Proof. apply formatNodes_label_is_safe_aux. Qed.

(** X2. Every statement contributes at most 80 bytes to a label, so the
    label of [k] statements has at most [84 * k - 4] bytes (the separator
    has 4), and the label of no statement is empty. *)
Theorem formatNodes_length_bound
    (pr : token.FileSet → Node → string) (fset : token.FileSet)
    (nodes : list Node) :
  (len (formatNodes pr fset nodes) ≤ 84 * length nodes - 4)%nat
  ∧ (nodes = [] → formatNodes pr fset nodes = EmptyString).
Proof.
  split; [|by intros ->].
  unfold formatNodes.
  pose proof (Join_len (formatLine ∘ toNaturalLanguage pr fset <$> nodes)
                "<br>" 80) as H.
  rewrite length_fmap in H. change (len "<br>") with 4%nat in H.
  apply H, Forall_fmap, Forall_forall. intros n _. apply formatLine_len.
Qed.

(** X3. Labels compose: the label of two non-empty runs of statements put
    together is their two labels joined by the separator. In particular the
    label a split block would have had in one node is its setup label, the
    separator, and its condition label. *)
Theorem formatNodes_app
    (pr : token.FileSet → Node → string) (fset : token.FileSet)
    (front back : list Node) :
  front ≠ [] → back ≠ [] →
  formatNodes pr fset (front ++ back) =
  formatNodes pr fset front +:+ "<br>" +:+ formatNodes pr fset back.
Proof.
  intros Hf Hb. unfold formatNodes. rewrite fmap_app.
  apply Join_app; by destruct front, back.
Qed.

Lemma formatNodes_app_witness :
  formatNodes samplePrinter sampleFset
    ([AssignStmt [Ident "x"] token.DEFINE [Ident "y"]]
     ++ [BinaryExpr (Ident "x") token.GTR (Ident "n")]) =
  formatNodes samplePrinter sampleFset
    [AssignStmt [Ident "x"] token.DEFINE [Ident "y"]]
  +:+ "<br>" +:+
  formatNodes samplePrinter sampleFset
    [BinaryExpr (Ident "x") token.GTR (Ident "n")].
Proof.
  apply (formatNodes_app samplePrinter sampleFset
           [AssignStmt [Ident "x"] token.DEFINE [Ident "y"]]
           [BinaryExpr (Ident "x") token.GTR (Ident "n")]); discriminate.
Defined.

(** ** The noise filter as a stage of the pipeline *)

Lemma filterNoise_app front back :
  filterNoise (front ++ back) = filterNoise front ++ filterNoise back.
Proof.
  induction front as [|n front IH]; [done|]. simpl.
  destruct (isNoise n); by rewrite IH.
Qed.

Lemma filterNoise_idem nodes : filterNoise (filterNoise nodes) = filterNoise nodes.
Proof.
  induction nodes as [|n nodes IH]; [done|]. simpl.
  destruct (isNoise n) eqn:E; [done|]. simpl. by rewrite E, IH.
Qed.

Lemma filterNoise_length nodes :
  (length (filterNoise nodes) ≤ length nodes)%nat.
Proof.
  induction nodes as [|n nodes IH]; [done|]. simpl.
  destruct (isNoise n); simpl; lia.
Qed.

Lemma filterBlock_idem b : filterBlock (filterBlock b) = filterBlock b.
Proof. unfold filterBlock. simpl. by rewrite filterNoise_idem. Qed.

(** X4. Filtering twice is filtering once, filtering a concatenation is
    filtering its parts, and the filter never adds a node. *)
Theorem filterNoise_idempotent_and_local (front back : list Node) :
  filterNoise (filterNoise front) = filterNoise front
  ∧ filterNoise (front ++ back) = filterNoise front ++ filterNoise back
  ∧ (length (filterNoise front) ≤ length front)%nat.
Proof.
  split; [apply filterNoise_idem|].
  split; [apply filterNoise_app|apply filterNoise_length].
Qed.

(** X5. The diagram of a graph that has already been through the noise
    filter is the diagram of the graph itself: running the pre-processing
    pass again changes nothing. *)
Theorem render_of_filtered_graph
    (pr : token.FileSet → Node → string) (fset : token.FileSet)
    (flowGraph : list Block) (startFunc : string) :
  render pr fset (filterBlock <$> flowGraph) startFunc
  = render pr fset flowGraph startFunc.
Proof.
  unfold render. cbv zeta. rewrite <- list_fmap_compose.
  assert (filterBlock ∘ filterBlock <$> flowGraph = filterBlock <$> flowGraph)
    as ->; [|done].
  apply list_fmap_ext. intros i b _. apply filterBlock_idem.
Qed.

(** X6. The pre-processing pass keeps the shape of the graph: indices and
    successors are untouched, a pass-through block stays one, and a block
    with one successor whose statements are all noise becomes a
    pass-through block, for which the renderer then writes nothing. *)
Theorem filterBlock_shape
    (pr : token.FileSet → Node → string) (fset : token.FileSet)
    (g : list Block) (b : Block) :
  Index (filterBlock b) = Index b
  ∧ Succs (filterBlock b) = Succs b
  ∧ (isEmptyPassThrough b = true → isEmptyPassThrough (filterBlock b) = true)
  ∧ (Forall noiseShape (Nodes b) → length (Succs b) = 1%nat →
     isEmptyPassThrough (filterBlock b) = true
     ∧ renderBlock pr fset g (filterBlock b) = Ok []).
Proof.
  split; [done|]. split; [done|]. split.
  - unfold isEmptyPassThrough. simpl.
    intros [Hn Hs]%andb_true_iff. apply Nat.eqb_eq in Hn.
    apply length_zero_iff_nil in Hn. by rewrite Hn.
  - intros Hall Hs.
    assert (filterNoise (Nodes b) = []) as Hnil.
    { induction Hall as [|n l Hn _ IH]; [done|]. simpl.
      apply isNoise_noiseShape in Hn. by rewrite Hn. }
    assert (isEmptyPassThrough (filterBlock b) = true) as Hpt.
    { unfold isEmptyPassThrough. simpl. by rewrite Hnil, Hs. }
    split; [done|]. unfold renderBlock. by rewrite Hpt.
Qed.

(** ** resolveDestination *)

Lemma resolveLoop_path g fuel visited curr d :
  resolveLoop g fuel visited curr = Ok d → ∃ path, chain g curr path d.
Proof.
  revert visited curr. induction fuel as [|fuel IH]; intros v c; [done|].
  destruct (g !! c) as [b|] eqn:Hb.
  - rewrite (resolveLoop_round _ _ _ _ _ Hb).
    destruct (isEmptyPassThrough b) eqn:Hp.
    + destruct (marked v (Index b)).
      * intros [= <-]. exists []. constructor.
      * destruct (Succs b) as [|s rest] eqn:Hs; [done|].
        intros (path & Hch)%IH. exists (c :: path).
        econstructor; [done..| |done]. by rewrite Hs.
    + intros [= <-]. exists []. constructor.
  - simpl. unfold deref. by rewrite Hb.
Qed.

Lemma chain_blocks g c path d :
  chain g c path d →
  Forall (λ p, ∃ b s, g !! p = Some b ∧ Nodes b = [] ∧ Succs b = [s]) path.
Proof.
  induction 1 as [c|c b s path d Hb Hp Hs _ IH]; [constructor|].
  constructor; [|done].
  unfold isEmptyPassThrough in Hp. apply andb_true_iff in Hp as [Hn Hl].
  apply Nat.eqb_eq in Hn, Hl. apply length_zero_iff_nil in Hn.
  destruct (Succs b) as [|s' [|]] eqn:E; simplify_eq/=. eauto.
Qed.

(** X7. Resolution skips empty blocks only: the block [resolveDestination]
    returns is reached from the one it was given by following the single
    successor of blocks that hold no statement, so no statement is ever
    left out of the diagram by a resolved edge; and a block that is not a
    pass-through resolves to itself. *)
Theorem resolveDestination_skips_only_empty_blocks
    (g : list Block) (b d : nat) :
  resolveDestination g b = Ok d →
  (∃ path,
     chain g b path d
     ∧ Forall (λ p, ∃ blk s,
                 g !! p = Some blk ∧ Nodes blk = [] ∧ Succs blk = [s]) path)
  ∧ (passThroughAt g b = false → d = b).
Proof.
  intros Hr. split.
  - destruct (resolveLoop_path _ _ _ _ _ Hr) as (path & Hch).
    exists path. split; [done|]. by eapply chain_blocks.
  - unfold passThroughAt, resolveDestination in *. intros Hp.
    destruct (g !! b) as [blk|] eqn:Hb.
    + rewrite (resolveLoop_round _ _ _ _ _ Hb), Hp in Hr. by injection Hr.
    + simpl in Hr. unfold deref in Hr. by rewrite Hb in Hr.
Qed.

Lemma resolveDestination_skips_witness :
  (∃ path,
     chain sampleFiltered 2 path 3
     ∧ Forall (λ p, ∃ blk s,
                 sampleFiltered !! p = Some blk ∧ Nodes blk = []
                 ∧ Succs blk = [s]) path)
  ∧ (passThroughAt sampleFiltered 2 = false → 3%nat = 2%nat).
Proof.
  apply (resolveDestination_skips_only_empty_blocks sampleFiltered 2 3).
  vm_compute. reflexivity.
Defined.

(** ** The diagram as a whole *)

Lemma bind_not_OutOfFuel {A B} (m : result A) (f : A → result B) :
  m ≠ OutOfFuel → (∀ a, f a ≠ OutOfFuel) → m ≫= f ≠ OutOfFuel.
Proof. destruct m as [a| |]; simpl; [by intros _ H|done..]. Qed.

Lemma deref_not_OutOfFuel g p : deref g p ≠ OutOfFuel.
Proof. unfold deref. by destruct (g !! p). Qed.

Lemma blockEdges_not_OutOfFuel g block : blockEdges g block ≠ OutOfFuel.
Proof.
  unfold blockEdges. destruct (Succs block) as [|s0 [|s1 [|s2 rest]]]; try done.
  - apply bind_not_OutOfFuel; [apply resolveDestination_stops|]. intros p.
    apply bind_not_OutOfFuel; [apply deref_not_OutOfFuel|done].
  - apply bind_not_OutOfFuel; [apply resolveDestination_stops|]. intros p.
    apply bind_not_OutOfFuel; [apply deref_not_OutOfFuel|]. intros d.
    apply bind_not_OutOfFuel; [apply resolveDestination_stops|]. intros p'.
    apply bind_not_OutOfFuel; [apply deref_not_OutOfFuel|done].
Qed.

Lemma renderBlocks_not_OutOfFuel pr fset g blocks :
  renderBlocks pr fset g blocks ≠ OutOfFuel.
Proof.
  induction blocks as [|block blocks IH]; [done|]. simpl.
  apply bind_not_OutOfFuel.
  - unfold renderBlock. destruct (isEmptyPassThrough block); [done|].
    apply bind_not_OutOfFuel; [apply blockEdges_not_OutOfFuel|done].
  - intros ls. by apply bind_not_OutOfFuel.
Qed.

(** X8. Rendering always comes to an end, and for a graph whose successors
    all lie in the slice it fails in one case only: the slice of blocks is
    empty, where reading the first block panics. *)
Theorem render_outcome
    (pr : token.FileSet → Node → string) (fset : token.FileSet)
    (flowGraph : list Block) (startFunc : string) :
  render pr fset flowGraph startFunc ≠ OutOfFuel
  ∧ (closed flowGraph →
     (flowGraph = [] ∧ render pr fset flowGraph startFunc = Panic)
     ∨ (flowGraph ≠ [] ∧ ∃ ls, render pr fset flowGraph startFunc = Ok ls)).
Proof.
  split.
  - unfold render. cbv zeta.
    apply bind_not_OutOfFuel; [apply resolveDestination_stops|]. intros p.
    apply bind_not_OutOfFuel; [apply deref_not_OutOfFuel|]. intros b.
    apply bind_not_OutOfFuel; [apply renderBlocks_not_OutOfFuel|done].
  - intros Hc. destruct flowGraph as [|b g]; [by left|].
    right. split; [done|]. by apply render_Ok.
Qed.

Lemma getStructuralLabel_safe block : safeLabel (getStructuralLabel block).
Proof.
  unfold getStructuralLabel.
  repeat case_match; vm_compute; repeat constructor.
Qed.

Lemma blockDecls_label_safe pr fset block l label :
  l ∈ blockDecls pr fset block → labelOf l = Some label → safeLabel label.
Proof.
  destruct (blockDecls_spec pr fset block)
    as [(_ & setup & cond & _ & ->)|(_ & ? & ? & ? & ->)];
    rewrite ?elem_of_cons, elem_of_nil; intros H Hl;
    repeat (destruct H as [->|H]; [simplify_eq/=|]); try done.
  - apply formatNodes_label_is_safe_aux.
  - apply formatNodes_label_is_safe_aux.
  - destruct (Nat.eqb _ _);
      [apply getStructuralLabel_safe|apply formatNodes_label_is_safe_aux].
Qed.

(** X9. No label written into a node of the diagram, whether made from
    statements or structural, holds a newline, a tab, a double quote or a
    brace. *)
Theorem render_labels_are_safe
    (pr : token.FileSet → Node → string) (fset : token.FileSet)
    (flowGraph : list Block) (startFunc : string) (ls : list Line)
    (l : Line) (label : string) :
  render pr fset flowGraph startFunc = Ok ls →
  l ∈ ls → labelOf l = Some label → safeLabel label.
Proof.
  intros Hr Hin Hl.
  destruct (render_line _ _ _ _ _ _ Hr Hin)
    as [->|[->|[(dest & _ & ->)|(block & es & _ & _ & Hes & H)]]]; try done.
  destruct H as [H|H]; [by eapply blockDecls_label_safe|].
  apply blockEdges_edges in Hes. rewrite Forall_forall in Hes.
  specialize (Hes _ H). by destruct l.
Qed.

Lemma render_labels_witness : safeLabel "x is greater than n".
Proof.
  apply (render_labels_are_safe samplePrinter sampleFset sampleGraph "f"
           sampleLines (CondDecl 0 "x is greater than n")).
  - vm_compute. reflexivity.
  - unfold sampleLines. apply list_elem_of_In. simpl. tauto.
  - reflexivity.
Defined.




Lemma countEdges_edges es :
  Forall (λ l, isEdge l = true) es → countEdges es = length es.
Proof.
  unfold countEdges. induction 1 as [|l es Hl _ IH]; [done|].
  simpl. by rewrite Hl, IH.
Qed.

Lemma countEdges_decls pr fset block : countEdges (blockDecls pr fset block) = 0%nat.
Proof.
  destruct (blockDecls_spec pr fset block)
    as [(_ & setup & cond & _ & ->)|(_ & ? & ? & ? & ->)]; reflexivity.
Qed.

(** X11. A block that is rendered gets one edge per successor when it has
    one or two of them, and no edge at all otherwise: a block with three or
    more successors is declared as a node that nothing leaves. *)
Theorem renderBlock_edge_count
    (pr : token.FileSet → Node → string) (fset : token.FileSet)
    (g : list Block) (block : Block) (part : list Line) :
  renderBlock pr fset g block = Ok part →
  isEmptyPassThrough block = false →
  countEdges part =
  if Nat.leb (length (Succs block)) 2 then length (Succs block) else 0%nat.
Proof.
  intros [[? _]|(_ & es & Hes & ->)]%renderBlock_inv Hpt; [congruence|].
  unfold countEdges. rewrite sum_list_with_app.
  fold (countEdges (blockDecls pr fset block)). fold (countEdges es).
  rewrite countEdges_decls, countEdges_edges by (by eapply blockEdges_edges).
  apply blockEdges_spec in Hes.
  destruct (Succs block) as [|s0 [|s1 [|s2 rest]]]; simpl.
  - by subst.
  - by destruct Hes as (? & _ & ->).
  - by destruct Hes as (? & ? & _ & _ & ->).
  - by subst.
Qed.

Lemma renderBlock_edge_count_witness :
  countEdges [SetupDecl 0 "Set x to y"; CondDecl 0 "x is greater than n";
              SetupEdge 0; Edge "B0" "-->|True|" "B1";
              Edge "B0" "-->|False|" "B3"] =
  if Nat.leb (length (Succs sampleEntry)) 2
  then length (Succs sampleEntry) else 0%nat.
Proof.
  apply (renderBlock_edge_count samplePrinter sampleFset sampleFiltered
           sampleEntry).
  - vm_compute. reflexivity.
  - reflexivity.
Defined.

(** X12. The structural label of a rendered block without statements is
    Start, End / Return or Loop / Switch Entry whenever the block has at
    most two successors: an empty block with one successor is a
    pass-through and is never rendered, so Merge Point is written only for
    a block with three or more successors and an index other than 0. *)
Theorem getStructuralLabel_of_rendered_block (block : Block) :
  isEmptyPassThrough block = false → Nodes block = [] →
  (Index block = 0 ∧ getStructuralLabel block = "Start")
  ∨ (Index block ≠ 0 ∧ Succs block = []
     ∧ getStructuralLabel block = "End / Return")
  ∨ (Index block ≠ 0 ∧ length (Succs block) = 2%nat
     ∧ getStructuralLabel block = "Loop / Switch Entry")
  ∨ (Index block ≠ 0 ∧ (3 ≤ length (Succs block))%nat
     ∧ getStructuralLabel block = "Merge Point").
Proof.
  unfold isEmptyPassThrough, getStructuralLabel. intros Hpt Hn.
  rewrite Hn in Hpt. simpl in Hpt.
  destruct (Z.eqb_spec (Index block) 0) as [H0|H0]; [by left|].
  right. destruct (Succs block) as [|s0 [|s1 [|s2 rest]]]; simpl in *.
  - by left.
  - done.
  - right; left. done.
  - right; right. repeat split; [done|lia].
Qed.

Lemma getStructuralLabel_witness :
  (Index {| Index := 2; Nodes := []; Succs := [] |} = 0
   ∧ getStructuralLabel {| Index := 2; Nodes := []; Succs := [] |} = "Start")
  ∨ (Index {| Index := 2; Nodes := []; Succs := [] |} ≠ 0
     ∧ Succs {| Index := 2; Nodes := []; Succs := [] |} = []
     ∧ getStructuralLabel {| Index := 2; Nodes := []; Succs := [] |}
       = "End / Return")
  ∨ (Index {| Index := 2; Nodes := []; Succs := [] |} ≠ 0
     ∧ length (Succs {| Index := 2; Nodes := []; Succs := [] |}) = 2%nat
     ∧ getStructuralLabel {| Index := 2; Nodes := []; Succs := [] |}
       = "Loop / Switch Entry")
  ∨ (Index {| Index := 2; Nodes := []; Succs := [] |} ≠ 0
     ∧ (3 ≤ length (Succs {| Index := 2; Nodes := []; Succs := [] |}))%nat
     ∧ getStructuralLabel {| Index := 2; Nodes := []; Succs := [] |}
       = "Merge Point").
Proof.
  apply (getStructuralLabel_of_rendered_block
           {| Index := 2; Nodes := []; Succs := [] |}); reflexivity.
Defined.

(** ** Node identifiers *)

Lemma bytes_inj s t : bytes s = bytes t → s = t.
Proof.
  intros H. apply (f_equal of_bytes) in H.
  by rewrite !String.string_of_list_ascii_of_string in H.
Qed.

Lemma app_inv_tail_string s t u : s +:+ u = t +:+ u → s = t.
Proof.
  intros H. apply (f_equal bytes) in H. rewrite !bytes_app in H.
  apply app_inv_tail in H. by apply bytes_inj.
Qed.

Lemma pretty_N_go_suffix x s : ∃ t, pretty_N_go x s = t +:+ s.
Proof.
  revert s. induction (N.lt_wf_0 x) as [x _ IH]; intros s.
  destruct (decide (x = 0)%N) as [->|Hx].
  - exists EmptyString. by rewrite pretty_N_go_0.
  - rewrite pretty_N_go_step by lia.
    destruct (IH (x `div` 10)%N
                (N.div_lt x 10 ltac:(lia) ltac:(lia))
                (String (pretty_N_char (x `mod` 10)) s)) as [t Ht].
    exists (t +:+ String (pretty_N_char (x `mod` 10)) EmptyString).
    by rewrite Ht, app_assoc'.
Qed.

Lemma pretty_N_char_not_p n : pretty_N_char n ≠ "p"%char.
Proof. unfold pretty_N_char. repeat case_match; discriminate. Qed.

Lemma pretty_N_last (x : N) :
  ∃ t c, pretty x = t +:+ String c EmptyString ∧ c ≠ "p"%char.
Proof.
  unfold pretty, pretty_N. case_decide as Hx.
  - by exists EmptyString, "0"%char.
  - rewrite pretty_N_go_step by lia.
    destruct (pretty_N_go_suffix (x `div` 10)
                (String (pretty_N_char (x `mod` 10)) EmptyString)) as [t Ht].
    exists t, (pretty_N_char (x `mod` 10)). split; [done|].
    apply pretty_N_char_not_p.
Qed.

Lemma pretty_Z_last (x : Z) :
  ∃ t c, pretty x = t +:+ String c EmptyString ∧ c ≠ "p"%char.
Proof.
  destruct x as [|p|p].
  - by exists EmptyString, "0"%char.
  - apply (pretty_N_last (N.pos p)).
  - destruct (pretty_N_last (N.pos p)) as (t & c & Ht & Hc).
    exists ("-" +:+ t), c. split; [|done].
    change (pretty (Z.neg p)) with ("-" +:+ pretty (N.pos p)).
    by rewrite Ht.
Qed.

Lemma setup_id_not_plain (i j : Z) : pretty i +:+ "_setup" ≠ pretty j.
Proof.
  intros H. destruct (pretty_Z_last j) as (t & c & Hj & Hc).
  rewrite Hj in H. apply (f_equal bytes) in H. rewrite !bytes_app in H.
  change (bytes "_setup") with (["_"; "s"; "e"; "t"; "u"]%char ++ ["p"%char])
    in H.
  change (bytes (String c EmptyString)) with [c] in H.
  rewrite (assoc_L (++)) in H. apply app_inj_tail in H as [_ H]. congruence.
Qed.

#[global] Instance keyId_inj : Inj (=) (=) keyId.
Proof.
  intros [i [|]] [j [|]]; unfold keyId; simpl; intros H;
    apply (inj (String.app "B")) in H.
  - apply app_inv_tail_string in H. by apply (inj pretty) in H as ->.
  - by apply setup_id_not_plain in H.
  - symmetry in H. by apply setup_id_not_plain in H.
  - by apply (inj pretty) in H as ->.
Qed.








(** ** analyzeCFG and main *)

Lemma load_cases (l : Loaded) :
  err l = true
  ∨ (err l = false ∧ loadErrors l ≠ [])
  ∨ (err l = false ∧ loadErrors l = []).
Proof.
  destruct (err l); [by left|]. right.
  destruct (loadErrors l); [by right|by left].
Qed.

Lemma lineString_ends_NL l : ∃ front, lineString l = front +:+ NL.
Proof.
  destruct l; simpl; rewrite <- ?app_assoc'; by eexists.
Qed.

Lemma writeAll_ends_NL ls : ls ≠ [] → ∃ front, writeAll ls = front +:+ NL.
Proof.
  induction ls as [|l ls IH]; [done|]. intros _. simpl.
  destruct ls as [|l' ls].
  - simpl. rewrite app_empty_r. apply lineString_ends_NL.
  - destruct IH as [front Hf]; [done|]. rewrite Hf.
    exists (lineString l +:+ front). by rewrite app_assoc'.
Qed.

Lemma nonempty_text s t : s ≠ EmptyString → s +:+ t ≠ EmptyString.
Proof. by destruct s. Qed.

(** X14. The text of a diagram always starts with the two style classes
    and the declaration of the root node for the requested name, and ends
    with a newline, so the closing fence that [main] appends starts a line
    of its own. *)
Theorem render_text_shape
    (pr : token.FileSet → Node → string) (fset : token.FileSet)
    (flowGraph : list Block) (startFunc : string) (ls : list Line) :
  render pr fset flowGraph startFunc = Ok ls →
  (∃ rest,
     writeAll ls = lineString ClassDefs +:+ lineString (RootDecl startFunc)
                   +:+ rest)
  ∧ (∃ front, writeAll ls = front +:+ NL)
  ∧ (∃ front, fence (writeAll ls) = front +:+ NL +:+ "```" +:+ NL).
Proof.
  intros (first & body & _ & _ & ->)%render_inv.
  assert (∃ front,
            writeAll ([ClassDefs; RootDecl startFunc;
                       RootEdge (getEntryPoint first)] ++ body)
            = front +:+ NL) as [front Hf] by (by apply writeAll_ends_NL).
  split; [by eexists|]. split; [by exists front|].
  unfold fence. rewrite Hf.
  exists ("```mermaid" +:+ NL +:+ "flowchart TD;" +:+ NL +:+ front).
  by rewrite !app_assoc'.
Qed.

Lemma render_text_shape_witness :
  (∃ rest,
     writeAll sampleLines = lineString ClassDefs +:+ lineString (RootDecl "f")
                            +:+ rest)
  ∧ (∃ front, writeAll sampleLines = front +:+ NL)
  ∧ (∃ front, fence (writeAll sampleLines) = front +:+ NL +:+ "```" +:+ NL).
Proof.
  apply (render_text_shape samplePrinter sampleFset sampleGraph "f").
  vm_compute. reflexivity.
Defined.

Lemma analyzeCFG_error_text pr load new path startFunc text e :
  outcome (analyzeCFG pr load new path startFunc) = Ok (text, Some e) →
  text = EmptyString.
Proof.
  destruct (load_cases (load path)) as [He|[[He Hp]|[He Hp]]].
  - rewrite (analyzeCFG_load_err pr load new path startFunc He).
    by intros [= <- _].
  - rewrite (analyzeCFG_load_printed pr load new path startFunc He Hp).
    by intros [= <- _].
  - rewrite (analyzeCFG_loaded pr load new path startFunc He Hp).
    cbn [outcome].
    destruct (last (matching startFunc (pkgs (load path))))
      as [[fn fset]|]; [|by intros [= <- _]].
    destruct (Body fn); [|done]. by intros (ls & _ & [=])%bind_Ok.
Qed.

(** X15. The errors of [analyzeCFG]. A load that failed, or whose
    packages carry errors, is reported as such whether or not the function
    exists; an error always comes with an empty text, and is either the load
    failure or the function not found; a result without error has a text
    that is not empty, a tree that loaded without error and a declaration
    with the requested name, which has a body. The call writes to the error
    stream the errors of the packages, one per line, and nothing else. *)
Theorem analyzeCFG_errors
    (pr : token.FileSet → Node → string) (load : string → Loaded)
    (new : nat → list Block) (path startFunc : string) :
  (err (load path) = true ∨ loadErrors (load path) ≠ [] →
   outcome (analyzeCFG pr load new path startFunc)
   = Ok (EmptyString, Some "failed to load packages"))
  ∧ (∀ text e,
       outcome (analyzeCFG pr load new path startFunc) = Ok (text, Some e) →
       text = EmptyString
       ∧ (e = "failed to load packages"
          ∨ e = "function '" +:+ startFunc +:+ "' not found"))
  ∧ (∀ text,
       outcome (analyzeCFG pr load new path startFunc) = Ok (text, None) →
       text ≠ EmptyString
       ∧ err (load path) = false ∧ loadErrors (load path) = []
       ∧ ∃ fn fset body,
           last (matching startFunc (pkgs (load path))) = Some (fn, fset)
           ∧ Body fn = Some body)
  ∧ written (analyzeCFG pr load new path startFunc)
    = (if err (load path) then EmptyString
       else foldr (λ e rest, e +:+ NL +:+ rest) EmptyString
              (loadErrors (load path))).
Proof.
  destruct (load_cases (load path)) as [He|[[He Hp]|[He Hp]]].
  - rewrite (analyzeCFG_load_err pr load new path startFunc He), He.
    cbn [outcome written]. split; [done|].
    split; [intros text e [= <- <-]; auto|]. split; [by intros text [=]|done].
  - rewrite (analyzeCFG_load_printed pr load new path startFunc He Hp), He.
    cbn [outcome written]. split; [done|].
    split; [intros text e [= <- <-]; auto|]. split; [by intros text [=]|done].
  - rewrite (analyzeCFG_loaded pr load new path startFunc He Hp), He, Hp.
    cbn [outcome written]. split; [by intros [|]|].
    destruct (last (matching startFunc (pkgs (load path))))
      as [[fn fset]|] eqn:E.
    + destruct (Body fn) as [body|] eqn:Hb.
      * split; [intros text e (ls & _ & [=])%bind_Ok|]. split; [|done].
        intros text (ls & Hr & [= <-])%bind_Ok.
        split; [|split; [done|split; [done|by exists fn, fset, body]]].
        apply render_inv in Hr as (first & body' & _ & _ & ->).
        simpl. apply nonempty_text. discriminate.
      * split; [done|]. split; [done|done].
    + split; [intros text e [= <- <-]; auto|]. split; [by intros text [=]|done].
Qed.

Section MainProperties.

Context (pr : token.FileSet → Node → string) (load : string → Loaded)
  (new : nat → list Block)
  (writeFile : gmap string string → string → string
               → gmap string string * option string).

Lemma written_on_text path startFunc text :
  outcome (analyzeCFG pr load new path startFunc) = Ok (text, None) →
  written (analyzeCFG pr load new path startFunc) = EmptyString.
Proof.
  destruct (load_cases (load path)) as [He|[[He Hp]|[He Hp]]].
  - by rewrite (analyzeCFG_load_err pr load new path startFunc He).
  - by rewrite (analyzeCFG_load_printed pr load new path startFunc He Hp).
  - by rewrite (analyzeCFG_loaded pr load new path startFunc He Hp).
Qed.

Lemma main_on_error flags w text e :
  outcome (analyzeCFG pr load new (targetDirOf flags) (startFuncOf flags))
  = Ok (text, Some e) →
  main pr load new writeFile (Parsed_ok flags) w =
  Ok ({| stdout := stdout w;
         stderr := stderr w
                   +:+ written (analyzeCFG pr load new (targetDirOf flags)
                                  (startFuncOf flags))
                   +:+ "Error: " +:+ e +:+ NL;
         files := files w |}, 1).
Proof. unfold main, targetDirOf, startFuncOf. cbv zeta. by intros ->. Qed.

Lemma main_on_text flags w text :
  outcome (analyzeCFG pr load new (targetDirOf flags) (startFuncOf flags))
  = Ok (text, None) →
  main pr load new writeFile (Parsed_ok flags) w =
  if String.eqb (outFileOf flags) "-" then
    Ok ({| stdout := stdout w +:+ fence text +:+ NL;
           stderr := stderr w;
           files := files w |}, 0)
  else
    match (writeFile (files w) (outFileOf flags) (fence text)).2 with
    | Some e =>
        Ok ({| stdout := stdout w;
               stderr := stderr w +:+ "Error writing file: " +:+ e +:+ NL;
               files := (writeFile (files w) (outFileOf flags)
                           (fence text)).1 |}, 1)
    | None =>
        Ok ({| stdout := stdout w +:+ "Successfully generated "
                         +:+ outFileOf flags +:+ " for function "
                         +:+ startFuncOf flags +:+ "()" +:+ NL;
               stderr := stderr w;
               files := (writeFile (files w) (outFileOf flags)
                           (fence text)).1 |}, 0)
    end.
Proof.
  intros Ha. pose proof (written_on_text _ _ _ Ha) as Hw. revert Ha Hw.
  unfold main, targetDirOf, startFuncOf, outFileOf. cbv zeta.
  intros -> ->. cbn [mbind result_bind snd fst]. by rewrite !app_empty_r.
Qed.

(** X16. What a run of [main] that does not panic leaves behind. When
    [flag.Parse] prints the usage on request the status is 0, when it
    rejects the command line the status is 2; in both cases only its text
    is added to the error stream. After [flag.Parse] has returned the
    status is 0 or 1. With status 0 nothing was written to the error stream
    and the analysis gave a text: it went to the standard output, followed
    by a newline, when the output file is [-], and to one call of
    [os.WriteFile] with the fenced text otherwise. With status 1 nothing
    was written to the standard output: either the analysis failed, no file
    was touched, and the error stream received what the analysis printed
    followed by one line with the cause; or the one call of [os.WriteFile]
    failed. *)
Theorem main_outcomes (cmd : Parsed) (w w' : World) (code : Z) :
  main pr load new writeFile cmd w = Ok (w', code) →
  (∃ usage,
     cmd = Parsed_help usage ∧ code = 0
     ∧ stdout w' = stdout w ∧ files w' = files w
     ∧ stderr w' = stderr w +:+ usage)
  ∨ (∃ report,
       cmd = Parsed_error report ∧ code = 2
       ∧ stdout w' = stdout w ∧ files w' = files w
       ∧ stderr w' = stderr w +:+ report)
  ∨ (∃ flags,
       cmd = Parsed_ok flags
       ∧ ((code = 0 ∧ stderr w' = stderr w
           ∧ ∃ text,
               outcome (analyzeCFG pr load new (targetDirOf flags)
                          (startFuncOf flags)) = Ok (text, None)
               ∧ ((outFileOf flags = "-" ∧ files w' = files w
                   ∧ stdout w' = stdout w +:+ fence text +:+ NL)
                  ∨ (outFileOf flags ≠ "-"
                     ∧ writeFile (files w) (outFileOf flags) (fence text)
                       = (files w', None))))
          ∨ (code = 1 ∧ stdout w' = stdout w
             ∧ ((∃ e,
                   outcome (analyzeCFG pr load new (targetDirOf flags)
                              (startFuncOf flags))
                   = Ok (EmptyString, Some e)
                   ∧ files w' = files w
                   ∧ stderr w' =
                     stderr w
                     +:+ written (analyzeCFG pr load new (targetDirOf flags)
                                    (startFuncOf flags))
                     +:+ "Error: " +:+ e +:+ NL)
                ∨ (∃ text e,
                     outcome (analyzeCFG pr load new (targetDirOf flags)
                                (startFuncOf flags)) = Ok (text, None)
                     ∧ outFileOf flags ≠ "-"
                     ∧ writeFile (files w) (outFileOf flags) (fence text)
                       = (files w', Some e)
                     ∧ stderr w' = stderr w +:+ "Error writing file: "
                                   +:+ e +:+ NL))))).
Proof.
  destruct cmd as [flags|usage|report].
  2: { intros [= <- <-]. left. by exists usage. }
  2: { intros [= <- <-]. right; left. by exists report. }
  intros Hm. right; right. exists flags. split; [done|]. revert Hm.
  destruct (outcome (analyzeCFG pr load new (targetDirOf flags)
                       (startFuncOf flags))) as [[text [e|]]| |] eqn:Ha.
  - rewrite (main_on_error _ _ _ _ Ha). intros [= <- <-]. right.
    pose proof (analyzeCFG_error_text _ _ _ _ _ _ _ Ha) as ->.
    split; [done|]. split; [done|]. left. by exists e.
  - rewrite (main_on_text _ _ _ Ha).
    destruct (String.eqb_spec (outFileOf flags) "-") as [Heq|Hne].
    + intros [= <- <-]. left. split; [done|]. split; [done|].
      exists text. split; [done|]. by left.
    + destruct (writeFile (files w) (outFileOf flags) (fence text))
        as [fs' [e|]] eqn:Hw; simpl.
      * intros [= <- <-]. right. split; [done|]. split; [done|].
        right. by exists text, e.
      * intros [= <- <-]. left. split; [done|]. split; [done|].
        exists text. split; [done|]. by right.
  - unfold main, targetDirOf, startFuncOf in *. cbv zeta. by rewrite Ha.
  - unfold main, targetDirOf, startFuncOf in *. cbv zeta. by rewrite Ha.
Qed.

(** X17. When the source tree cannot be loaded, or holds no declaration
    with the requested name, [main] ends with status 1 and leaves the
    standard output and every file as they were. The error stream receives
    one line that names the cause; when the load itself succeeded but the
    packages carry errors, that line comes after those errors, which
    [packages.PrintErrors] prints one per line. *)
Theorem main_fails_without_output (flags : Flags) (w : World) :
  (err (load (targetDirOf flags)) = true →
   main pr load new writeFile (Parsed_ok flags) w =
   Ok ({| stdout := stdout w;
          stderr := stderr w +:+ "Error: failed to load packages" +:+ NL;
          files := files w |}, 1))
  ∧ (err (load (targetDirOf flags)) = false →
     loadErrors (load (targetDirOf flags)) ≠ [] →
     main pr load new writeFile (Parsed_ok flags) w =
     Ok ({| stdout := stdout w;
            stderr := stderr w
                      +:+ foldr (λ e rest, e +:+ NL +:+ rest) EmptyString
                            (loadErrors (load (targetDirOf flags)))
                      +:+ "Error: failed to load packages" +:+ NL;
            files := files w |}, 1))
  ∧ (err (load (targetDirOf flags)) = false →
     loadErrors (load (targetDirOf flags)) = [] →
     matching (startFuncOf flags) (pkgs (load (targetDirOf flags))) = [] →
     main pr load new writeFile (Parsed_ok flags) w =
     Ok ({| stdout := stdout w;
            stderr := stderr w +:+ "Error: function '" +:+ startFuncOf flags
                      +:+ "' not found" +:+ NL;
            files := files w |}, 1)).
Proof.
  split; [|split].
  - intros He.
    rewrite (main_on_error flags w EmptyString "failed to load packages"),
      (analyzeCFG_load_err _ _ _ _ _ He); [done|].
    by rewrite (analyzeCFG_load_err _ _ _ _ _ He).
  - intros He Hp.
    rewrite (main_on_error flags w EmptyString "failed to load packages"),
      (analyzeCFG_load_printed _ _ _ _ _ He Hp); [done|].
    by rewrite (analyzeCFG_load_printed _ _ _ _ _ He Hp).
  - intros He Hp Hm.
    rewrite (main_on_error flags w EmptyString
               ("function '" +:+ startFuncOf flags +:+ "' not found")),
      (analyzeCFG_loaded _ _ _ _ _ He Hp).
    + cbn [written]. do 3 f_equal. by rewrite !app_assoc'.
    + by rewrite (analyzeCFG_loaded _ _ _ _ _ He Hp), Hm.
Qed.

(** X18. When the tree loads and holds the function, and the last
    declaration with that name has a body whose graph is one [cfg.New] can
    build, [main] ends with status 0 whenever it can write: the fenced text
    of that diagram goes to the standard output for the output file [-],
    and otherwise to the output file through one call of [os.WriteFile],
    after which a line of success is printed. *)
Theorem main_writes_the_diagram
    (flags : Flags) (w : World) (fn : FuncDecl) (fset : token.FileSet)
    (body : nat) :
  err (load (targetDirOf flags)) = false →
  loadErrors (load (targetDirOf flags)) = [] →
  last (matching (startFuncOf flags) (pkgs (load (targetDirOf flags))))
  = Some (fn, fset) →
  Body fn = Some body →
  closed (new body) → new body ≠ [] →
  ∃ ls,
    render pr fset (new body) (startFuncOf flags) = Ok ls
    ∧ (outFileOf flags = "-" →
       main pr load new writeFile (Parsed_ok flags) w =
       Ok ({| stdout := stdout w +:+ fence (writeAll ls) +:+ NL;
              stderr := stderr w;
              files := files w |}, 0))
    ∧ (∀ fs',
         outFileOf flags ≠ "-" →
         writeFile (files w) (outFileOf flags) (fence (writeAll ls))
         = (fs', None) →
         main pr load new writeFile (Parsed_ok flags) w =
         Ok ({| stdout := stdout w +:+ "Successfully generated "
                          +:+ outFileOf flags +:+ " for function "
                          +:+ startFuncOf flags +:+ "()" +:+ NL;
                stderr := stderr w;
                files := fs' |}, 0)).
Proof.
  intros He Hp Hm Hb Hc Hn.
  destruct (render_Ok pr fset (new body) (startFuncOf flags) Hc Hn)
    as (ls & Hls).
  exists ls. split; [done|].
  assert (outcome (analyzeCFG pr load new (targetDirOf flags)
                     (startFuncOf flags)) = Ok (writeAll ls, None)) as Ha.
  { rewrite (analyzeCFG_loaded _ _ _ _ _ He Hp). cbn [outcome].
    by rewrite Hm, Hb, Hls. }
  rewrite (main_on_text _ _ _ Ha). split.
  - intros ->. done.
  - intros fs' Hne%String.eqb_neq Hw. by rewrite Hne, Hw.
Qed.


End MainProperties.

Lemma main_outcomes_witness :
  (∃ usage,
     Parsed_ok noFlags = Parsed_help usage ∧ 1 = 0
     ∧ stdout brokenWorld = stdout emptyWorld
     ∧ files brokenWorld = files emptyWorld
     ∧ stderr brokenWorld = stderr emptyWorld +:+ usage)
  ∨ (∃ report,
       Parsed_ok noFlags = Parsed_error report ∧ 1 = 2
       ∧ stdout brokenWorld = stdout emptyWorld
       ∧ files brokenWorld = files emptyWorld
       ∧ stderr brokenWorld = stderr emptyWorld +:+ report)
  ∨ (∃ flags,
       Parsed_ok noFlags = Parsed_ok flags
       ∧ ((1 = 0 ∧ stderr brokenWorld = stderr emptyWorld
           ∧ ∃ text,
               outcome (analyzeCFG samplePrinter brokenLoad sampleNew
                          (targetDirOf flags) (startFuncOf flags))
               = Ok (text, None)
               ∧ ((outFileOf flags = "-"
                   ∧ files brokenWorld = files emptyWorld
                   ∧ stdout brokenWorld
                     = stdout emptyWorld +:+ fence text +:+ NL)
                  ∨ (outFileOf flags ≠ "-"
                     ∧ sampleWriteFile (files emptyWorld) (outFileOf flags)
                         (fence text)
                       = (files brokenWorld, None))))
          ∨ (1 = 1 ∧ stdout brokenWorld = stdout emptyWorld
             ∧ ((∃ e,
                   outcome (analyzeCFG samplePrinter brokenLoad sampleNew
                              (targetDirOf flags) (startFuncOf flags))
                   = Ok (EmptyString, Some e)
                   ∧ files brokenWorld = files emptyWorld
                   ∧ stderr brokenWorld =
                     stderr emptyWorld
                     +:+ written (analyzeCFG samplePrinter brokenLoad
                                    sampleNew (targetDirOf flags)
                                    (startFuncOf flags))
                     +:+ "Error: " +:+ e +:+ NL)
                ∨ (∃ text e,
                     outcome (analyzeCFG samplePrinter brokenLoad sampleNew
                                (targetDirOf flags) (startFuncOf flags))
                     = Ok (text, None)
                     ∧ outFileOf flags ≠ "-"
                     ∧ sampleWriteFile (files emptyWorld) (outFileOf flags)
                         (fence text)
                       = (files brokenWorld, Some e)
                     ∧ stderr brokenWorld
                       = stderr emptyWorld +:+ "Error writing file: " +:+ e
                         +:+ NL))))).
Proof.
  apply (main_outcomes samplePrinter brokenLoad sampleNew sampleWriteFile
           (Parsed_ok noFlags) emptyWorld brokenWorld 1).
  vm_compute. reflexivity.
Defined.

Lemma main_writes_witness :
  ∃ ls,
    render samplePrinter sampleFset (sampleNew 2) (startFuncOf (flagsFor "g"))
    = Ok ls
    ∧ (outFileOf (flagsFor "g") = "-" →
       main samplePrinter sampleLoad sampleNew sampleWriteFile
         (Parsed_ok (flagsFor "g")) emptyWorld =
       Ok ({| stdout := stdout emptyWorld +:+ fence (writeAll ls) +:+ NL;
              stderr := stderr emptyWorld;
              files := files emptyWorld |}, 0))
    ∧ (∀ fs',
         outFileOf (flagsFor "g") ≠ "-" →
         sampleWriteFile (files emptyWorld) (outFileOf (flagsFor "g"))
           (fence (writeAll ls)) = (fs', None) →
         main samplePrinter sampleLoad sampleNew sampleWriteFile
           (Parsed_ok (flagsFor "g")) emptyWorld =
         Ok ({| stdout := stdout emptyWorld +:+ "Successfully generated "
                          +:+ outFileOf (flagsFor "g") +:+ " for function "
                          +:+ startFuncOf (flagsFor "g") +:+ "()" +:+ NL;
                stderr := stderr emptyWorld;
                files := fs' |}, 0)).
Proof.
  apply (main_writes_the_diagram samplePrinter sampleLoad sampleNew
           sampleWriteFile (flagsFor "g") emptyWorld
           {| Name := "g"; Body := Some 2%nat |} sampleFset 2%nat).
  - reflexivity.
  - reflexivity.
  - reflexivity.
  - reflexivity.
  - repeat constructor.
  - discriminate.
Defined.


(** ** toNaturalLanguage *)

(** X19. The humanizer is one level deep: the phrase of a node depends on
    the printer only through the text of the node itself and of its direct
    operands, never through anything nested deeper. *)
Theorem toNaturalLanguage_one_level
    (pr pr' : token.FileSet → Node → string) (fset : token.FileSet)
    (n : Node) :
  pr fset n = pr' fset n →
  (∀ c, c ∈ operands n → pr fset c = pr' fset c) →
  toNaturalLanguage pr fset n = toNaturalLanguage pr' fset n.
Proof.
  intros Hn Hc.
  destruct n as [| | |op x|x op y| |lhs tok rhs| |x tok|rs|];
    cbn [toNaturalLanguage operands] in *; try done.
  - destruct op; try done. by rewrite (Hc x) by (by left).
  - assert (pr fset x = pr' fset x) as -> by (apply Hc; by left).
    assert (pr fset y = pr' fset y) as -> by (apply Hc; right; by left).
    by destruct op.
  - destruct lhs as [|l [|]]; try done. destruct rhs as [|r [|]]; try done.
    assert (pr fset l = pr' fset l) as -> by (apply Hc; by left).
    assert (pr fset r = pr' fset r) as -> by (apply Hc; right; by left).
    done.
  - destruct tok; try done; by rewrite (Hc x) by (by left).
  - destruct rs as [|r rs]; [done|].
    assert (pr fset <$> r :: rs = pr' fset <$> r :: rs) as ->; [|done].
    apply list_fmap_ext. intros i c Hi. apply Hc.
    by eapply list_elem_of_lookup_2.
Qed.

Lemma toNaturalLanguage_one_level_witness :
  toNaturalLanguage samplePrinter sampleFset notCall
  = toNaturalLanguage callPrinter sampleFset notCall.
Proof.
  apply (toNaturalLanguage_one_level samplePrinter callPrinter sampleFset
           notCall).
  - reflexivity.
  - intros c Hc. apply list_elem_of_In in Hc. simpl in Hc.
    destruct Hc as [<-|[]]. reflexivity.
Defined.
